(** * Domino chains: a shallow embedding of the IKM domino solver

    The Python program keeps domino tiles as mutable objects, permutes the
    caller's list in place, flips tile objects in place and undoes both, and
    stores the winning arrangement in a doubly-linked list.  The embedding
    keeps that shape: tile objects and list nodes live in object stores
    addressed by references, and every function threads the stores through.

    A result [None] of a model function stands for a Python exception
    (an [IndexError], a dangling reference, the [ValueError] of [int]) or for
    exhausted fuel; the theorems show that the solver meets neither on
    well-formed stores, and which entries make [int] raise in [main]. *)

From Stdlib Require Import ZArith String Ascii DecimalString.
From stdpp Require Import list.

Local Open Scope nat_scope.

(** * Part I: the program

    ** Object stores *)

(** A reference is the position of an object in its store; allocation
    appends to the store, so a fresh object receives the store's length. *)
Abbreviation ref := nat.

Module DominoTile.

Record t := mk { value_left : Z; value_right : Z }.

Abbreviation heap := (list t).

(** [self.value_left, self.value_right = self.value_right, self.value_left] *)
Definition flipped (x : t) : t :=
  {| value_left := value_right x; value_right := value_left x |}.

Definition flip (h : heap) (self : ref) : option heap :=
  x ← h !! self; Some (<[self := flipped x]> h).

(** [return DominoTile(self.value_left, self.value_right)] *)
Definition clone (h : heap) (self : ref) : option (heap * ref) :=
  x ← h !! self;
  Some (h ++ [{| value_left := value_left x; value_right := value_right x |}],
        length h).

End DominoTile.

Abbreviation DominoTile := DominoTile.t.
Abbreviation value_left := DominoTile.value_left.
Abbreviation value_right := DominoTile.value_right.
Abbreviation tile_heap := DominoTile.heap.

Global Instance DominoTile_eq_dec : EqDecision DominoTile.
Proof. solve_decision. Defined.

(** ** Python list primitives used by the solver *)

(** [l[i] = v]; an index out of range raises. *)
Definition list_set {A} (i : nat) (v : A) (l : list A) : option (list A) :=
  if decide (i < length l) then Some (<[i := v]> l) else None.

(** [l[i], l[j] = l[j], l[i]]: the right-hand side is read first, then
    position [i] and position [j] are assigned in that order. *)
Definition swap_items {A} (i j : nat) (l : list A) : option (list A) :=
  a ← l !! j; b ← l !! i;
  l1 ← list_set i a l; list_set j b l1.

(** [for i in idx: s = body(i, s)], stopping at the first exception. *)
Fixpoint for_each {S I} (body : I → S → option S) (idx : list I) (s : S)
  : option S :=
  match idx with
  | [] => Some s
  | i :: idx' => s' ← body i s; for_each body idx' s'
  end.

(** [[tile.clone() for tile in tiles]] *)
Fixpoint clone_each (h : tile_heap) (tiles : list ref)
  : option (tile_heap * list ref) :=
  match tiles with
  | [] => Some (h, [])
  | r :: rest =>
      '(h1, c) ← DominoTile.clone h r;
      '(h2, cs) ← clone_each h1 rest;
      Some (h2, c :: cs)
  end.

(** ** generate_permutations *)

(** The state the nested [permute] works on: the tile store, the list object
    [tiles] (the caller's own list, swapped in place) and the list [result]. *)
Record permute_state := PermuteState {
  ps_heap : tile_heap;
  ps_tiles : list ref;
  ps_result : list (list ref)
}.

Fixpoint permute (fuel : nat) (start : nat) (st : permute_state)
  : option permute_state :=
  match fuel with
  | 0 => None
  | S fuel' =>
      if decide (start = length (ps_tiles st)) then
        '(h', copy) ← clone_each (ps_heap st) (ps_tiles st);
        Some (PermuteState h' (ps_tiles st) (ps_result st ++ [copy]))
      else
        for_each
          (λ i st,
             l1 ← swap_items start i (ps_tiles st);
             st1 ← permute fuel' (S start)
                     (PermuteState (ps_heap st) l1 (ps_result st));
             l2 ← swap_items start i (ps_tiles st1);
             Some (PermuteState (ps_heap st1) l2 (ps_result st1)))
          (seq start (length (ps_tiles st) - start))
          st
  end.

(** [permute(0); return result].  The recursion depth is [len(tiles) + 1]. *)
Definition generate_permutations (h : tile_heap) (tiles : list ref)
  : option permute_state :=
  permute (S (length tiles)) 0 (PermuteState h tiles []).

(** ** generate_flips *)

(** The nested [flip]: the tile objects of [tiles] are turned in place and
    turned back; the state is the tile store and the list [result]. *)
Fixpoint flip (fuel : nat) (tiles : list ref) (index : nat)
    (st : tile_heap * list (list ref)) : option (tile_heap * list (list ref)) :=
  match fuel with
  | 0 => None
  | S fuel' =>
      if decide (index = length tiles) then
        '(h', copy) ← clone_each st.1 tiles;
        Some (h', st.2 ++ [copy])
      else
        st1 ← flip fuel' tiles (S index) st;
        r ← tiles !! index;
        h2 ← DominoTile.flip st1.1 r;
        st3 ← flip fuel' tiles (S index) (h2, st1.2);
        r' ← tiles !! index;
        h4 ← DominoTile.flip st3.1 r';
        Some (h4, st3.2)
  end.

(** [flip(0); return result] *)
Definition generate_flips (h : tile_heap) (tiles : list ref)
  : option (tile_heap * list (list ref)) :=
  flip (S (length tiles)) tiles 0 (h, []).

(** ** is_valid_chain / check_chain_valid *)

(** [for i in range(len(tiles) - 1)]: Python's [range] of a negative bound is
    empty, as is [seq 0 (0 - 1)] with truncated subtraction. *)
Fixpoint valid_loop (h : tile_heap) (tiles : list ref) (idx : list nat)
  : option bool :=
  match idx with
  | [] => Some true
  | i :: idx' =>
      a ← tiles !! i; x ← h !! a;
      b ← tiles !! (i + 1); y ← h !! b;
      if decide (value_right x ≠ value_left y) then Some false
      else valid_loop h tiles idx'
  end.

(** [is_valid_chain], nested in [build_if_possible]. *)
Definition is_valid_chain (h : tile_heap) (tiles : list ref) : option bool :=
  valid_loop h tiles (seq 0 (length tiles - 1)).

(** [check_chain_valid], the free function of scratch_12.py. *)
Definition check_chain_valid (h : tile_heap) (tiles : list ref) : option bool :=
  valid_loop h tiles (seq 0 (length tiles - 1)).

(** ** DominoTile.__str__ *)

(** Python's [str] of an integer: its decimal digits, with a leading minus
    sign for a negative number. *)
Definition str_int (z : Z) : string := NilZero.string_of_int (Z.to_int z).

Definition DominoTile_str (x : DominoTile) : string :=
  (str_int (value_left x) ++ str_int (value_right x))%string.

(** ** class DominoNode, class DominoLinkedChain *)

Module DominoNode.

Record t := mk {
  tile : ref;
  prev_node : option ref;
  next_node : option ref
}.

Abbreviation heap := (list t).

(** [DominoNode(tile)]: both links start as [None]. *)
Definition new (nh : heap) (tile : ref) : heap * ref :=
  (nh ++ [{| tile := tile; prev_node := None; next_node := None |}],
   length nh).

Definition set_next (nh : heap) (self : ref) (v : option ref) : option heap :=
  n ← nh !! self;
  Some (<[self := {| tile := tile n; prev_node := prev_node n;
                     next_node := v |}]> nh).

Definition set_prev (nh : heap) (self : ref) (v : option ref) : option heap :=
  n ← nh !! self;
  Some (<[self := {| tile := tile n; prev_node := v;
                     next_node := next_node n |}]> nh).

End DominoNode.

Abbreviation DominoNode := DominoNode.t.
Abbreviation node_heap := DominoNode.heap.
Abbreviation node_tile := DominoNode.tile.
Abbreviation prev_node := DominoNode.prev_node.
Abbreviation next_node := DominoNode.next_node.

Module DominoLinkedChain.

Record t := mk { node_first : option ref; node_last : option ref }.

(** [DominoLinkedChain()] *)
Definition new : t := {| node_first := None; node_last := None |}.

(** [append_tile]: a node object is always truthy, so [if self.node_last]
    tests the field against [None]. *)
Definition append_tile (nh : node_heap) (self : t) (tile : ref)
  : option (node_heap * t) :=
  let '(nh1, node) := DominoNode.new nh tile in
  match node_last self with
  | Some last =>
      nh2 ← DominoNode.set_next nh1 last (Some node);
      nh3 ← DominoNode.set_prev nh2 node (Some last);
      Some (nh3, {| node_first := node_first self; node_last := Some node |})
  | None =>
      Some (nh1, {| node_first := Some node; node_last := Some node |})
  end.

(** The [while current:] loop of [to_list]; the fuel bounds the number of
    iterations. *)
Fixpoint to_list_loop (fuel : nat) (th : tile_heap) (nh : node_heap)
    (current : option ref) (result : list string) : option (list string) :=
  match fuel with
  | 0 => None
  | S fuel' =>
      match current with
      | None => Some result
      | Some c =>
          n ← nh !! c;
          x ← th !! node_tile n;
          to_list_loop fuel' th nh (next_node n)
            (result ++ [DominoTile_str x])
      end
  end.

(** A chain without a cycle has at most as many nodes as the store. *)
Definition to_list (th : tile_heap) (nh : node_heap) (self : t)
  : option (list string) :=
  to_list_loop (S (length nh)) th nh (node_first self) [].

End DominoLinkedChain.

Abbreviation DominoLinkedChain := DominoLinkedChain.t.
Abbreviation node_first := DominoLinkedChain.node_first.
Abbreviation node_last := DominoLinkedChain.node_last.
Abbreviation append_tile := DominoLinkedChain.append_tile.
Abbreviation to_list := DominoLinkedChain.to_list.

(** ** The solver *)

(** Both object stores together. *)
Record world := World {
  tile_store : tile_heap;
  node_store : node_heap
}.

(** [chain = DominoLinkedChain(); for tile in variant: chain.append_tile(tile)] *)
Definition make_chain (nh : node_heap) (variant : list ref)
  : option (node_heap * DominoLinkedChain) :=
  for_each (λ tile '(nh, chain), append_tile nh chain tile)
    variant (nh, DominoLinkedChain.new).

(** The inner [for variant in ...] loop; [Some (Some _)] is the [return chain]
    that leaves both loops. *)
Fixpoint search_variants (valid : tile_heap → list ref → option bool)
    (w : world) (variants : list (list ref))
  : option (world * option DominoLinkedChain) :=
  match variants with
  | [] => Some (w, None)
  | variant :: rest =>
      ok ← valid (tile_store w) variant;
      if ok : bool then
        '(nh, chain) ← make_chain (node_store w) variant;
        Some (World (tile_store w) nh, Some chain)
      else search_variants valid w rest
  end.

(** The outer [for permutation in ...] loop; [generate_flips] runs when its
    permutation is reached. *)
Fixpoint search_permutations (valid : tile_heap → list ref → option bool)
    (w : world) (permutations : list (list ref))
  : option (world * option DominoLinkedChain) :=
  match permutations with
  | [] => Some (w, None)
  | permutation :: rest =>
      '(th, variants) ← generate_flips (tile_store w) permutation;
      '(w', found) ← search_variants valid (World th (node_store w)) variants;
      match found with
      | Some chain => Some (w', Some chain)
      | None => search_permutations valid w' rest
      end
  end.

(** The outcome of a solver call: the stores, the caller's list object as
    the call leaves it, and the returned chain ([None] is Python's [None]). *)
Record outcome := Outcome {
  out_world : world;
  out_tiles : list ref;
  out_chain : option DominoLinkedChain
}.

(** [DominoLinkedChain.build_if_possible] (the static method, in both files). *)
Definition build_if_possible (w : world) (tiles : list ref) : option outcome :=
  ps ← generate_permutations (tile_store w) tiles;
  '(w', found) ← search_permutations is_valid_chain
                   (World (ps_heap ps) (node_store w)) (ps_result ps);
  Some (Outcome w' (ps_tiles ps) found).

(** [build_valid_chain] (the free function of scratch_12.py): the list of
    permutations is bound to a local first, and validity is
    [check_chain_valid]. *)
Definition build_valid_chain (w : world) (tiles : list ref) : option outcome :=
  ps ← generate_permutations (tile_store w) tiles;
  let permutations := ps_result ps in
  '(w', found) ← search_permutations check_chain_valid
                   (World (ps_heap ps) (node_store w)) permutations;
  Some (Outcome w' (ps_tiles ps) found).

(** ** Tile objects built from literals, as [main] builds them *)

(** The store a caller holds after building [tiles] as fresh objects, as
    [main] does: object [i] is the [i]-th tile. *)
Definition fresh_world (tiles : list DominoTile) : world := World tiles [].

Definition tile (a b : Z) : DominoTile :=
  {| value_left := a; value_right := b |}.

(** ** The interactive shell: main *)

(** A Python string is kept as the bytes of its UTF-8 encoding, as the
    string literals of this file are.  [len], [str.strip], [str.isdigit],
    indexing and [int] work on characters, so they are modelled on the
    characters of the encoded string; the tables of white space, digits and
    decimal digits are those of Unicode 14.0, the version of CPython 3.11.
    A line is the encoding of a Python string; a sequence of bytes that
    encodes no text is no line that [input] returns.
    Each [input] call takes the next line of a list of lines; at the end of
    the list it raises [EOFError]. *)

(** A byte [10xxxxxx], which continues the encoding of a character. *)
Definition is_continuation (c : ascii) : bool :=
  let n := nat_of_ascii c in ((128 <=? n) && (n <? 192))%nat.

Definition starts_continued (s : string) : bool :=
  match s with
  | String c _ => is_continuation c
  | EmptyString => false
  end.

(** The characters of a string, each as the bytes of its encoding: a byte
    with the continuation bytes that follow it. *)
Fixpoint characters (s : string) : list string :=
  match s with
  | EmptyString => []
  | String c s' =>
      match characters s' with
      | ch :: chs =>
          if starts_continued ch then String c ch :: chs
          else String c EmptyString :: ch :: chs
      | [] => [String c EmptyString]
      end
  end.

(** [ord(ch)]: the payload bits of the first byte, then six bits of each
    continuation byte. *)
Definition code_point (ch : string) : N :=
  match ch with
  | EmptyString => 0%N
  | String c rest =>
      let n := N_of_ascii c in
      let lead :=
        if (n <? 128)%N then n
        else if (n <? 224)%N then (n mod 32)%N
        else if (n <? 240)%N then (n mod 16)%N
        else (n mod 8)%N in
      fold_left (λ acc b, (acc * 64 + N_of_ascii b mod 64)%N)
        (list_ascii_of_string rest) lead
  end.

Definition in_ranges (ranges : list (N * N)) (n : N) : bool :=
  existsb (λ r, (fst r <=? n)%N && (n <=? snd r)%N) ranges.

(** The code points on which [str.isspace] holds. *)
Definition space_ranges : list (N * N) :=
  [(9, 13); (28, 32); (133, 133); (160, 160); (5760, 5760); (8192, 8202);
   (8232, 8233); (8239, 8239); (8287, 8287); (12288, 12288)]%N.

(** [ch.isspace()] on one character. *)
Definition is_space (ch : string) : bool :=
  in_ranges space_ranges (code_point ch).

(** [s.lstrip()] and [s.rstrip()], on the characters of [s]. *)
Fixpoint lstrip (chs : list string) : list string :=
  match chs with
  | ch :: chs' => if is_space ch then lstrip chs' else chs
  | [] => []
  end.

Fixpoint rstrip (chs : list string) : list string :=
  match chs with
  | ch :: chs' =>
      match rstrip chs' with
      | [] => if is_space ch then [] else [ch]
      | r => ch :: r
      end
  | [] => []
  end.

(** [s.strip()]: leading and trailing white space removed. *)
Definition strip (s : string) : string :=
  String.concat EmptyString (rstrip (lstrip (characters s))).

(** [s.split(",")]: always at least one piece.  The comma is one byte, and
    in UTF-8 that byte is part of no other character. *)
Fixpoint split_comma (s : string) : list string :=
  match s with
  | EmptyString => [EmptyString]
  | String c s' =>
      if Ascii.eqb c "," then EmptyString :: split_comma s'
      else match split_comma s' with
           | piece :: rest => String c piece :: rest
           | [] => [String c EmptyString]
           end
  end.

(** The decimal digits of Unicode come in runs of ten, zero to nine: the
    code points of the zeros. *)
Definition decimal_zeros : list N :=
  [48; 1632; 1776; 1984; 2406; 2534; 2662; 2790; 2918; 3046; 3174; 3302;
   3430; 3558; 3664; 3792; 3872; 4160; 4240; 6112; 6160; 6470; 6608; 6784;
   6800; 6992; 7088; 7232; 7248; 42528; 43216; 43264; 43472; 43504; 43600;
   44016; 65296; 66720; 68912; 69734; 69872; 69942; 70096; 70384; 70736;
   70864; 71248; 71360; 71472; 71904; 72016; 72784; 73040; 73120; 92768;
   92864; 93008; 120782; 120792; 120802; 120812; 120822; 123200; 123632;
   125264; 130032]%N.

(** The digits that are no decimal digits: superscripts and subscripts,
    circled and parenthesised digits and the like. *)
Definition other_digits : list (N * N) :=
  [(178, 179); (185, 185); (4969, 4977); (6618, 6618); (8304, 8304);
   (8308, 8313); (8320, 8329); (9312, 9320); (9332, 9340); (9352, 9360);
   (9450, 9450); (9461, 9469); (9471, 9471); (10102, 10110); (10112, 10120);
   (10122, 10130); (68160, 68163); (69216, 69224); (69714, 69722);
   (127232, 127242)]%N.

(** The value of the decimal digit with code point [n], if it is one. *)
Definition unicode_decimal (n : N) : option Z :=
  (λ zero, Z.of_N (n - zero))
    <$> find (λ zero, (zero <=? n)%N && (n <? zero + 10)%N) decimal_zeros.

(** [ch.isdigit()] on one character: a decimal digit or another digit. *)
Definition is_digit (ch : string) : bool :=
  match unicode_decimal (code_point ch) with
  | Some _ => true
  | None => in_ranges other_digits (code_point ch)
  end.

(** [s.isdigit()]: every character a digit, and at least one character. *)
Definition str_isdigit (s : string) : bool :=
  negb (String.eqb s EmptyString) && forallb is_digit (characters s).

(** [int(ch)] for a one-character string: the value of a decimal digit;
    anything else raises [ValueError], other digits included. *)
Definition int_of_char (ch : string) : option Z :=
  unicode_decimal (code_point ch).

Definition format_error : string :=
  "error: input must contain exactly two digits (e.g., 02)".

Definition range_error : string :=
  "error: domino values must be between 0 and 6".

Definition empty_error : string := "error: no tiles to check".

Definition unknown_error : string := "error: unknown command".

(** The [for part in parts] loop of [main]: either the message printed
    before [break], or the store and the list [tiles] once every part has
    become a tile object; [None] when [int] raises [ValueError]. *)
Inductive parse_result :=
| Rejected (message : string)
| Accepted (h : tile_heap) (tiles : list ref).

Fixpoint parse_parts (h : tile_heap) (tiles : list ref) (parts : list string)
  : option parse_result :=
  match parts with
  | [] => Some (Accepted h tiles)
  | part :: rest =>
      if negb (length (characters part) =? 2)%nat || negb (str_isdigit part)
      then Some (Rejected format_error)
      else
        ch0 ← characters part !! 0; a ← int_of_char ch0;
        ch1 ← characters part !! 1; b ← int_of_char ch1;
        if (6 <? a)%Z || (6 <? b)%Z then Some (Rejected range_error)
        else parse_parts (h ++ [tile a b]) (tiles ++ [length h]) rest
  end.

(** What the session does, in order: a [print] call, the prompt of an
    [input] call, and a call of the solver with the values of its tiles. *)
Inductive event :=
| Print (text : string)
| Prompt (text : string)
| Solve (tiles : list DominoTile).

(** Where the control is when the next line is read: the menu's [input], the
    tile entry's [input], after the loop has ended, after an exception. *)
Inductive mode := AtMenu | AtAdd | Finished | Crashed.

Record session := Session {
  all_inputs : list string;
  events : list event;
  objects : world;
  at_mode : mode
}.

Definition emit (es : list event) (m : mode) (st : session) : session :=
  Session (all_inputs st) (events st ++ es) (objects st) m.

(** The prints at the top of the outer loop, up to its [input]. *)
Definition menu_events : list event :=
  [Print (String (ascii_of_nat 10) "Меню:");
   Print "1 – Добавить список костей";
   Print "2 – Показать ранее введённые списки";
   Print "3 – Выход";
   Prompt "Выберите действие: "].

(** The top of the inner loop, up to its [input]. *)
Definition add_events : list event :=
  [Print "Введите кости через запятую (например: 02, 04, 42):";
   Prompt ">>> "].

Definition stop_event : event :=
  Print (String (ascii_of_nat 10) "Программа остановлена вручную.").

(** [for i, entry in enumerate(all_inputs, 1): print(f"{i}) {entry}")] *)
Definition history_events (entries : list string) : list event :=
  imap (λ i entry, Print (str_int (Z.of_nat (S i)) ++ ") " ++ entry)%string)
    entries.

(** The body of the inner loop once [input] has returned [line]. *)
Definition add_attempt (st : session) (line : string) : session :=
  let input_str := strip line in
  if String.eqb input_str EmptyString then
    emit (Print empty_error :: add_events) AtAdd st
  else
    let parts := strip <$> split_comma input_str in
    match parse_parts (tile_store (objects st)) [] parts with
    | None => emit [] Crashed st
    | Some (Rejected message) => emit (Print message :: add_events) AtAdd st
    | Some (Accepted h tiles) =>
        let recorded := all_inputs st ++ [input_str] in
        let called :=
          Solve (default [] (mapM (λ r, h !! r) tiles)) in
        match build_if_possible (World h (node_store (objects st))) tiles with
        | None => Session recorded (events st ++ [called]) (objects st) Crashed
        | Some o =>
            match out_chain o with
            | Some chain =>
                match to_list (tile_store (out_world o))
                        (node_store (out_world o)) chain with
                | Some strs =>
                    Session recorded
                      (events st ++ called
                         :: Print ("Можно:" ++ " " ++ String.concat ", " strs)%string
                         :: menu_events)
                      (out_world o) AtMenu
                | None =>
                    Session recorded (events st ++ [called]) (out_world o)
                      Crashed
                end
            | None =>
                Session recorded
                  (events st ++ called :: Print "Нельзя." :: menu_events)
                  (out_world o) AtMenu
            end
        end
    end.

(** The body of the outer loop once [input] has returned [line]. *)
Definition menu_command (st : session) (line : string) : session :=
  let command := strip line in
  if String.eqb command "1" then emit add_events AtAdd st
  else if String.eqb command "2" then
    match all_inputs st with
    | [] => emit (Print "Списки не введены." :: menu_events) AtMenu st
    | entries =>
        emit (Print "Ранее введённые списки:"
                :: history_events entries ++ menu_events) AtMenu st
    end
  else if String.eqb command "3" then
    emit [Print "Программа завершена."] Finished st
  else emit (Print unknown_error :: menu_events) AtMenu st.

(** One [input] call returns [line]: the loop that asked for it goes on. *)
Definition step (st : session) (line : string) : session :=
  match at_mode st with
  | AtMenu => menu_command st line
  | AtAdd => add_attempt st line
  | Finished | Crashed => st
  end.

(** [input] at the end of the input raises [EOFError]: both loops print the
    stop message and leave. *)
Definition end_of_input (st : session) : session :=
  match at_mode st with
  | AtMenu | AtAdd => emit [stop_event] Finished st
  | Finished | Crashed => st
  end.

(** [main] run on the input [lines]. *)
Definition main (lines : list string) : session :=
  end_of_input
    (fold_left step lines
       (Session [] (Print "Домино — обработка списков костей" :: menu_events)
          (World [] []) AtMenu)).

(** The calls of the solver recorded in a list of events. *)
Definition solver_calls (es : list event) : list (list DominoTile) :=
  omap (λ e, match e with Solve vs => Some vs | _ => None end) es.

(** The texts printed in a list of events. *)
Definition printed (es : list event) : list string :=
  omap (λ e, match e with Print s => Some s | _ => None end) es.

(** ** The tile entry loop of the first [main] of scratch_12.py *)

Definition format_error_first : string :=
  "Error: the die must contain two digits (for example, 24)".

Definition range_error_first : string :=
  "Error: The dice values must be between 0 and 6".

(** The same loop with the other messages and the range test written
    [not (0 <= a <= 6 and 0 <= b <= 6)]. *)
Fixpoint parse_parts_first (h : tile_heap) (tiles : list ref)
    (parts : list string) : option parse_result :=
  match parts with
  | [] => Some (Accepted h tiles)
  | part :: rest =>
      if negb (length (characters part) =? 2)%nat || negb (str_isdigit part)
      then Some (Rejected format_error_first)
      else
        ch0 ← characters part !! 0; a ← int_of_char ch0;
        ch1 ← characters part !! 1; b ← int_of_char ch1;
        if negb (((0 <=? a)%Z && (a <=? 6)%Z) && ((0 <=? b)%Z && (b <=? 6)%Z))
        then Some (Rejected range_error_first)
        else parse_parts_first (h ++ [tile a b]) (tiles ++ [length h]) rest
  end.

(** * Part II: what the code computes, and the properties it is judged by

    ** The search on tile values *)

(** What the stateful code computes, on tile values alone. *)
Section SwapOrder.
Context {A : Type}.

(** Exchange of two positions; the identity when one is out of range. *)
Definition swapped (i j : nat) (l : list A) : list A :=
  match l !! j, l !! i with
  | Some a, Some b => <[j := b]> (<[i := a]> l)
  | _, _ => l
  end.

(** The order in which [permute(start)] emits arrangements when [k]
    positions remain: position [start] receives, in turn, the element at
    [start], [start+1], ... of the list as it stands on entry. *)
Fixpoint perms_from (k start : nat) (l : list A) : list (list A) :=
  match k with
  | 0 => [l]
  | S k' => i ← seq start (S k'); perms_from k' (S start) (swapped start i l)
  end.

Definition swap_perms (l : list A) : list (list A) :=
  perms_from (length l) 0 l.

End SwapOrder.

Abbreviation flipped := DominoTile.flipped.

(** The order in which [flip(index)] emits orientations when [k] positions
    remain: everything with position [index] as it stands, then everything
    with it turned. *)
Fixpoint flips_from (k index : nat) (l : list DominoTile)
  : list (list DominoTile) :=
  match k with
  | 0 => [l]
  | S k' => flips_from k' (S index) l
            ++ flips_from k' (S index) (alter flipped index l)
  end.

Definition all_flips (l : list DominoTile) : list (list DominoTile) :=
  flips_from (length l) 0 l.

(** Adjacent tiles match: the right value of each tile is the left value of
    the next. *)
Fixpoint validb (l : list DominoTile) : bool :=
  match l with
  | x :: (y :: _) as rest =>
      bool_decide (value_right x = value_left y) && validb rest
  | _ => true
  end.

(** Every candidate in the order the solver tries them. *)
Definition candidates (l : list DominoTile) : list (list DominoTile) :=
  p ← swap_perms l; all_flips p.

Definition first_valid (l : list DominoTile) : option (list DominoTile) :=
  find validb (candidates l).

(** ** Stores and references *)

(** The objects the references [rs] denote in store [h]. *)
Definition points_to (h : tile_heap) (rs : list ref) (vs : list DominoTile)
  : Prop :=
  Forall2 (λ r v, h !! r = Some v) rs vs.

(** The references a run of clonings hands out: one block of consecutive
    fresh references per cloned list. *)
Fixpoint fresh_blocks (base : nat) (P : list (list DominoTile))
  : list (list ref) :=
  match P with
  | [] => []
  | p :: P' => seq base (length p) :: fresh_blocks (base + length p) P'
  end.

(** ** The doubly-linked list built by append_tile *)

(** The nodes that appending the tiles [ts] one after the other creates in a
    store of [base] nodes: node [j] holds tile [j] and is linked to its
    neighbours [j - 1] and [j + 1]. *)
Definition linked_node (base n j : nat) (t : ref) : DominoNode :=
  {| DominoNode.tile := t;
     DominoNode.prev_node := match j with 0 => None | S j' => Some (base + j') end;
     DominoNode.next_node := if decide (S j < n) then Some (base + S j) else None |}.

Definition linked_nodes (base : nat) (ts : list ref) : list DominoNode :=
  imap (linked_node base (length ts)) ts.

Definition chain_over (base n : nat) : DominoLinkedChain :=
  match n with
  | 0 => DominoLinkedChain.new
  | S m => {| DominoLinkedChain.node_first := Some base;
              DominoLinkedChain.node_last := Some (base + m) |}
  end.

(** ** Outcomes of the search *)

(** What a search loop that found the arrangement [rs] leaves behind. *)
Definition chain_built (h : tile_heap) (nh : node_heap) (rs : list ref)
  : world * option DominoLinkedChain :=
  (World h (nh ++ linked_nodes (length nh) rs),
   Some (chain_over (length nh) (length rs))).

(** The outcome [o] of a solver call on the list [tiles] denoting [vs] in
    world [w]: the tile store only grew, the list object is as it was, and
    the result is decided by [first_valid]. *)
Definition solved (w : world) (tiles : list ref) (vs : list DominoTile)
    (o : outcome) : Prop :=
  ∃ extra,
    tile_store (out_world o) = tile_store w ++ extra ∧
    out_tiles o = tiles ∧
    match first_valid vs with
    | None => out_chain o = None ∧ node_store (out_world o) = node_store w
    | Some v =>
        ∃ rs, Forall (λ r, length (tile_store w) ≤ r) rs ∧
              points_to (tile_store w ++ extra) rs v ∧
              node_store (out_world o)
              = node_store w ++ linked_nodes (length (node_store w)) rs ∧
              out_chain o
              = Some (chain_over (length (node_store w)) (length rs))
    end.

(** ** The enumeration order, structurally *)

(** Orientations of a list: the head as it stands before the head turned,
    so earlier positions are more significant. *)
Fixpoint flip_order (l : list DominoTile) : list (list DominoTile) :=
  match l with
  | [] => [[]]
  | x :: r => (cons x <$> flip_order r) ++ (cons (flipped x) <$> flip_order r)
  end.

(** Arrangements of a list of [n] elements in the order of the swap-based
    generator: the head position receives the elements at index 0, 1, ...,
    each by exchange with the head, and the rest is arranged the same way. *)
Fixpoint swap_order {A} (n : nat) (l : list A) : list (list A) :=
  match n with
  | 0 => [[]]
  | S n' =>
      j ← seq 0 (S n');
      match swapped 0 j l with
      | y :: r => cons y <$> swap_order n' r
      | [] => []
      end
  end.

(** Arrangements in lexicographic order of the original indices: the head
    position receives the elements at index 0, 1, ..., and the rest, with
    that element taken out, is arranged the same way. *)
Fixpoint lex_order {A} (n : nat) (l : list A) : list (list A) :=
  match n with
  | 0 => [[]]
  | S n' =>
      j ← seq 0 (S n');
      match l !! j with
      | Some y => cons y <$> lex_order n' (delete j l)
      | None => []
      end
  end.

(** One tile in either orientation. *)
Definition oriented (a b : DominoTile) : Prop := b = a ∨ b = flipped a.

(** ** Reading a chain *)

(** Following one kind of link from [current] until [None]; the nodes met,
    in order.  The fuel bounds the number of nodes visited. *)
Fixpoint walk (fuel : nat) (link : DominoNode → option ref) (nh : node_heap)
    (current : option ref) : option (list ref) :=
  match fuel with
  | 0 => None
  | S fuel' =>
      match current with
      | None => Some []
      | Some c =>
          n ← nh !! c;
          rest ← walk fuel' link nh (link n);
          Some (c :: rest)
      end
  end.

(** The nodes of a chain from [node_first] along [next_node], and from
    [node_last] along [prev_node]. *)
Definition forward_nodes (nh : node_heap) (chain : DominoLinkedChain)
  : option (list ref) :=
  walk (S (length nh)) next_node nh (node_first chain).

Definition backward_nodes (nh : node_heap) (chain : DominoLinkedChain)
  : option (list ref) :=
  walk (S (length nh)) prev_node nh (node_last chain).

(** The tile objects held by a list of nodes, and their values. *)
Definition tiles_of_nodes (nh : node_heap) (nodes : list ref)
  : option (list ref) :=
  mapM (λ n, node_tile <$> nh !! n) nodes.

Definition chain_tiles (nh : node_heap) (chain : DominoLinkedChain)
  : option (list ref) :=
  forward_nodes nh chain ≫= tiles_of_nodes nh.

Definition chain_values (w : world) (chain : DominoLinkedChain)
  : option (list DominoTile) :=
  rs ← chain_tiles (node_store w) chain;
  mapM (λ r, tile_store w !! r) rs.

(** ** Properties of arrangements *)

(** Every adjacent pair matches: right value of the earlier tile, left value
    of the later one. *)
Definition adjacent (l : list DominoTile) : Prop :=
  ∀ i a b, l !! i = Some a → l !! (i + 1) = Some b →
           value_right a = value_left b.

(** Some permutation of the tiles, each tile in some orientation, is a
    chain. *)
Definition chainable (vs : list DominoTile) : Prop :=
  ∃ p f, p ≡ₚ vs ∧ Forall2 oriented p f ∧ adjacent f.

(** The unordered pair of values of a tile. *)
Definition unordered (x : DominoTile) : Z * Z :=
  (Z.min (value_left x) (value_right x), Z.max (value_left x) (value_right x)).

(** ** Inputs used as examples *)

(** The tiles 02, 04, 42 of the problem statement, held as objects 0, 1, 2. *)
Definition example_tiles : list DominoTile := [tile 0 2; tile 0 4; tile 4 2].

(** The candidates in the order of the code, and in the order the
    specification words: permutations lexicographic by original index. *)
Definition code_candidates (vs : list DominoTile) : list (list DominoTile) :=
  p ← swap_order (length vs) vs; flip_order p.

Definition lex_candidates (vs : list DominoTile) : list (list DominoTile) :=
  p ← lex_order (length vs) vs; flip_order p.

(** The five tiles 33, 02, 10, 30, 21. *)
Definition five_tiles : list DominoTile :=
  [tile 3 3; tile 0 2; tile 1 0; tile 3 0; tile 2 1].

(** ** Tokens of a tile entry *)

(** Exactly two digit characters. *)
Definition two_digit_token (part : string) : Prop :=
  ∃ ch0 ch1, characters part = [ch0; ch1] ∧
             is_digit ch0 = true ∧ is_digit ch1 = true.

(** The number a decimal digit stands for. *)
Definition digit_value (ch : string) : option Z :=
  unicode_decimal (code_point ch).

(** Two decimal digits, neither above 6: the tile the token denotes. *)
Definition token_tile (part : string) (x : DominoTile) : Prop :=
  ∃ ch0 ch1 a b, characters part = [ch0; ch1] ∧
                 digit_value ch0 = Some a ∧ digit_value ch1 = Some b ∧
                 (a ≤ 6)%Z ∧ (b ≤ 6)%Z ∧ x = tile a b.

Definition well_formed (part : string) : Prop := ∃ x, token_tile part x.

(** The tokens of an entry: the pieces between commas, each stripped. *)
Definition tokens (input_str : string) : list string :=
  strip <$> split_comma input_str.

(** Two digit characters that are not both decimal digits, such as a
    superscript two followed by a two: the token passes the check of
    [str.isdigit], and [int] does not read it. *)
Definition unreadable (part : string) : Prop :=
  ∃ ch0 ch1, characters part = [ch0; ch1] ∧
             is_digit ch0 = true ∧ is_digit ch1 = true ∧
             (digit_value ch0 = None ∨ digit_value ch1 = None).

(** ** Rendering and re-reading tiles *)

(** Both values of the tile lie in 0..6. *)
Definition in_range (x : DominoTile) : Prop :=
  (0 ≤ value_left x ≤ 6)%Z ∧ (0 ≤ value_right x ≤ 6)%Z.

Definition digit_char (a : Z) : ascii := ascii_of_nat (48 + Z.to_nat a).

(** A byte that is a character of its own, no white space and no comma. *)
Definition plain_byte (c : ascii) : Prop :=
  is_continuation c = false ∧
  is_space (String c EmptyString) = false ∧
  Ascii.eqb c "," = false.

(** A token of two such bytes, as the rendering of a tile with values in
    0..6 is. *)
Definition plain_token (t : string) : Prop :=
  ∃ c0 c1, t = String c0 (String c1 EmptyString) ∧
           plain_byte c0 ∧ plain_byte c1.

(** ** Further notions *)

(** A line of ASCII characters. *)
Definition ascii_line (s : string) : Prop :=
  Forall (λ c, nat_of_ascii c < 128) (list_ascii_of_string s).

(** The same tiles given in another order and with some of them turned. *)
Definition rearranged (vs vs' : list DominoTile) : Prop :=
  ∃ p, p ≡ₚ vs ∧ Forall2 oriented p vs'.

(** The message of the first [main] of scratch_12.py that stands for a
    message of the main program. *)
Definition first_message (message : string) : string :=
  if String.eqb message format_error then format_error_first
  else if String.eqb message range_error then range_error_first
  else message.

(** What one entry does to a session, seen from outside: asked again with
    nothing recorded, stopped by the exception of [int] on a token with
    nothing recorded, or recorded with the solver called on [vs]. *)
Inductive entry_effect (st st' : session) (input_str : string) : Prop :=
| entry_refused :
    all_inputs st' = all_inputs st →
    solver_calls (events st') = solver_calls (events st) →
    at_mode st' = AtAdd →
    entry_effect st st' input_str
| entry_raised bad :
    bad ∈ tokens input_str → unreadable bad →
    all_inputs st' = all_inputs st →
    solver_calls (events st') = solver_calls (events st) →
    at_mode st' = Crashed →
    entry_effect st st' input_str
| entry_taken vs :
    Forall2 token_tile (tokens input_str) vs →
    all_inputs st' = all_inputs st ++ [input_str] →
    solver_calls (events st') = solver_calls (events st) ++ [vs] →
    at_mode st' = AtMenu →
    entry_effect st st' input_str.

(** The history and the solver calls of a session agree: one call per
    recorded entry, in order, on the tiles the entry's tokens denote. *)
Definition history_matches_calls (st : session) : Prop :=
  Forall2 (λ entry vs, Forall2 token_tile (tokens entry) vs)
    (all_inputs st) (solver_calls (events st)).

(** What every step keeps: no exception so far, and one solver call per
    recorded entry. *)
Definition session_ok (st : session) : Prop :=
  at_mode st ≠ Crashed ∧ history_matches_calls st.

(** The line [main] prints for the answer of the solver on [vs]. *)
Definition answer_text (vs : list DominoTile) : string :=
  match first_valid vs with
  | Some v =>
      ("Можно:" ++ " " ++ String.concat ", " (DominoTile_str <$> v))%string
  | None => "Нельзя."
  end.

(** * Part III: the stateful code computes the functional description *)

Section StoreLemmas.
Implicit Types (h : tile_heap) (rs : list ref) (vs : list DominoTile).

Lemma points_to_length h rs vs : points_to h rs vs → length rs = length vs.
Proof. apply Forall2_length. Qed.

Lemma points_to_app_heap h h' rs vs :
  points_to h rs vs → points_to (h ++ h') rs vs.
Proof.
  unfold points_to. intros H. eapply Forall2_impl; [exact H|].
  intros r v Hr. by apply lookup_app_l_Some.
Qed.

Lemma points_to_bound h rs vs :
  points_to h rs vs → Forall (λ r, r < length h) rs.
Proof.
  induction 1; constructor; eauto using lookup_lt_Some.
Qed.

Lemma points_to_seq h vs : points_to (h ++ vs) (seq (length h) (length vs)) vs.
Proof.
  revert h. induction vs as [|v vs IH]; intros h; simpl; constructor.
  - rewrite lookup_app_r by lia. by rewrite Nat.sub_diag.
  - specialize (IH (h ++ [v])). rewrite <- app_assoc in IH. simpl in IH.
    rewrite length_app in IH. simpl in IH.
    by replace (length h + 1) with (S (length h)) in IH by lia.
Qed.

Lemma points_to_inj h rs vs vs' :
  points_to h rs vs → points_to h rs vs' → vs = vs'.
Proof.
  intros H. revert vs'. induction H; intros vs' H'; inversion H'; subst.
  - done.
  - f_equal; [congruence | eauto].
Qed.

Lemma clone_each_spec h rs vs :
  points_to h rs vs →
  clone_each h rs = Some (h ++ vs, seq (length h) (length vs)).
Proof.
  revert h vs. induction rs as [|r rs IH]; intros h vs H.
  - inversion H; subst. simpl. by rewrite app_nil_r.
  - inversion H as [|? v ? vs' Hr Hrest]; subst. simpl.
    unfold DominoTile.clone. rewrite Hr. simpl.
    assert (Hv : {| value_left := value_left v;
                    value_right := value_right v |} = v) by by destruct v.
    rewrite Hv.
    rewrite (IH (h ++ [v]) vs') by by apply points_to_app_heap.
    simpl. rewrite <- app_assoc. simpl.
    rewrite length_app. simpl.
    by replace (length h + 1) with (S (length h)) by lia.
Qed.

Lemma fresh_blocks_app base P Q :
  fresh_blocks base (P ++ Q)
  = fresh_blocks base P ++ fresh_blocks (base + length (concat P)) Q.
Proof.
  revert base. induction P as [|p P IH]; intros base; simpl.
  - by rewrite Nat.add_0_r.
  - rewrite IH. rewrite length_app. by rewrite Nat.add_assoc.
Qed.

Lemma fresh_blocks_length base P :
  length (fresh_blocks base P) = length P.
Proof. revert base. induction P; intros; simpl; auto. Qed.

End StoreLemmas.

Section SwapLemmas.
Context {A : Type}.
Implicit Types (l : list A).

Lemma swapped_length i j l : length (swapped i j l) = length l.
Proof.
  unfold swapped. destruct (l !! j), (l !! i); auto.
  by rewrite !length_insert.
Qed.

Lemma swap_items_spec i j l :
  i < length l → j < length l → swap_items i j l = Some (swapped i j l).
Proof.
  intros Hi Hj. unfold swap_items, swapped, list_set.
  destruct (lookup_lt_is_Some_2 l j Hj) as [a ->].
  destruct (lookup_lt_is_Some_2 l i Hi) as [b ->]. simpl.
  rewrite decide_True by done. simpl.
  rewrite decide_True by by rewrite length_insert.
  done.
Qed.

Lemma swapped_lookup i j l n :
  i < length l → j < length l →
  swapped i j l !! n
  = if decide (n = j) then l !! i else if decide (n = i) then l !! j
    else l !! n.
Proof.
  intros Hi Hj. unfold swapped.
  destruct (lookup_lt_is_Some_2 l j Hj) as [a Ha].
  destruct (lookup_lt_is_Some_2 l i Hi) as [b Hb]. rewrite Ha, Hb.
  destruct (decide (n = j)) as [->|Hnj].
  - by rewrite list_lookup_insert_eq by by rewrite length_insert.
  - rewrite list_lookup_insert_ne by done.
    destruct (decide (n = i)) as [->|Hni].
    + by rewrite list_lookup_insert_eq.
    + by rewrite list_lookup_insert_ne.
Qed.

Lemma swapped_involutive i j l :
  i < length l → j < length l → swapped i j (swapped i j l) = l.
Proof.
  intros Hi Hj. apply list_eq. intros n.
  rewrite swapped_lookup by by rewrite swapped_length.
  rewrite !swapped_lookup by done.
  repeat case_decide; subst; done.
Qed.

Lemma swapped_diag i l : swapped i i l = l.
Proof.
  unfold swapped. destruct (l !! i) as [a|] eqn:Ha; [|done].
  by rewrite !list_insert_id by
    (done || by rewrite list_lookup_insert_eq by eauto using lookup_lt_Some).
Qed.

End SwapLemmas.

Lemma points_to_swapped h rs vs i j :
  points_to h rs vs → points_to h (swapped i j rs) (swapped i j vs).
Proof.
  intros H. pose proof (points_to_length _ _ _ H) as Hlen.
  unfold swapped.
  destruct (rs !! j) as [a|] eqn:Ha, (rs !! i) as [b|] eqn:Hb.
  - destruct (Forall2_lookup_l _ _ _ _ _ H Ha) as (va & -> & Hva).
    destruct (Forall2_lookup_l _ _ _ _ _ H Hb) as (vb & -> & Hvb).
    by repeat apply Forall2_insert.
  - apply lookup_ge_None in Hb.
    rewrite (lookup_ge_None_2 vs i) by lia. by destruct (vs !! j).
  - apply lookup_ge_None in Ha. by rewrite (lookup_ge_None_2 vs j) by lia.
  - apply lookup_ge_None in Ha. by rewrite (lookup_ge_None_2 vs j) by lia.
Qed.

(** [permute(start)] with [k] positions left: the store grows by the emitted
    arrangements, the list object is back in its entry order, and [result]
    grows by one block of fresh references per arrangement. *)
Lemma permute_spec k : ∀ fuel start h l res vs,
  points_to h l vs → start + k = length l → k < fuel →
  permute fuel start (PermuteState h l res)
  = Some (PermuteState (h ++ concat (perms_from k start vs)) l
            (res ++ fresh_blocks (length h) (perms_from k start vs))).
Proof.
  induction k as [|k IH]; intros fuel start h l res vs Hpt Hlen Hfuel;
    (destruct fuel as [|fuel]; [lia|]); simpl.
  - rewrite decide_True by lia.
    rewrite (clone_each_spec _ _ _ Hpt). simpl.
    by rewrite !app_nil_r.
  - rewrite decide_False by lia.
    replace (length l - start) with (S k) by lia.
    assert (Hloop : ∀ idx h res,
      Forall (λ i, start ≤ i < length l) idx → points_to h l vs →
      let P := idx ≫= (λ i, perms_from k (S start) (swapped start i vs)) in
      for_each
        (λ i st,
           l1 ← swap_items start i (ps_tiles st);
           st1 ← permute fuel (S start)
                   (PermuteState (ps_heap st) l1 (ps_result st));
           l2 ← swap_items start i (ps_tiles st1);
           Some (PermuteState (ps_heap st1) l2 (ps_result st1)))
        idx (PermuteState h l res)
      = Some (PermuteState (h ++ concat P) l
                (res ++ fresh_blocks (length h) P))).
    { clear h res Hpt. induction idx as [|i idx IHidx]; intros h res Hidx Hpt.
      - simpl. by rewrite !app_nil_r.
      - inversion Hidx as [|? ? Hi Hidx']; subst. simpl.
        rewrite swap_items_spec by lia. simpl.
        rewrite (IH fuel (S start) h (swapped start i l) res
                   (swapped start i vs));
          [|by apply points_to_swapped| rewrite swapped_length; lia | lia].
        simpl. rewrite swap_items_spec by (rewrite swapped_length; lia).
        simpl. rewrite swapped_involutive by lia.
        rewrite IHidx by (done || by apply points_to_app_heap).
        rewrite concat_app, fresh_blocks_app, length_app, !app_assoc.
        done. }
    apply Hloop; [|done].
    apply Forall_forall. intros i Hi. apply elem_of_seq in Hi. lia.
Qed.

Lemma alter_lookup_insert {A} (f : A → A) (l : list A) i v :
  l !! i = Some v → alter f i l = <[i := f v]> l.
Proof.
  revert i. induction l as [|x l IH]; intros [|i] Hv; simplify_eq/=; auto.
  f_equal. by apply IH.
Qed.

Lemma flipped_involutive x : flipped (flipped x) = x.
Proof. by destruct x. Qed.

Lemma tile_flip_spec (h : tile_heap) r v :
  h !! r = Some v → DominoTile.flip h r = Some (<[r := flipped v]> h).
Proof. intros Hr. unfold DominoTile.flip. by rewrite Hr. Qed.

(** Overwriting one object of a duplicate-free reference list changes the
    denoted value at that position only. *)
Lemma points_to_insert h rs vs i r x :
  points_to h rs vs → NoDup rs → rs !! i = Some r →
  points_to (<[r := x]> h) rs (<[i := x]> vs).
Proof.
  intros Hpt Hnd Hr.
  apply Forall2_same_length_lookup_2.
  { rewrite length_insert. by eapply points_to_length. }
  intros n r' v' Hr' Hv'.
  destruct (decide (n = i)) as [->|Hne].
  - assert (r' = r) as -> by congruence.
    destruct (Forall2_lookup_l _ _ _ _ _ Hpt Hr) as (v & Hv & Hh).
    rewrite list_lookup_insert_eq in Hv' by eauto using lookup_lt_Some.
    rewrite list_lookup_insert_eq by eauto using lookup_lt_Some.
    done.
  - rewrite list_lookup_insert_ne in Hv' by done.
    rewrite list_lookup_insert_ne.
    + by eapply (Forall2_lookup_lr _ _ _ _ _ _ Hpt).
    + intros ->. apply Hne. symmetry. by eapply NoDup_lookup.
Qed.

(** [flip(index)] with [k] positions left: the store grows by the emitted
    orientations, every tile object is back as it was on entry, and [result]
    grows by one block of fresh references per orientation. *)
Lemma flip_spec rs k : ∀ fuel index h res vs,
  NoDup rs → points_to h rs vs → index + k = length rs → k < fuel →
  flip fuel rs index (h, res)
  = Some (h ++ concat (flips_from k index vs),
          res ++ fresh_blocks (length h) (flips_from k index vs)).
Proof.
  induction k as [|k IH]; intros fuel index h res vs Hnd Hpt Hlen Hfuel;
    (destruct fuel as [|fuel]; [lia|]); simpl.
  - rewrite decide_True by lia.
    rewrite (clone_each_spec _ _ _ Hpt). simpl. by rewrite !app_nil_r.
  - rewrite decide_False by lia.
    rewrite (IH fuel (S index) h res vs) by (done || lia). simpl.
    destruct (lookup_lt_is_Some_2 rs index ltac:(lia)) as [r Hr].
    rewrite Hr. simpl.
    destruct (Forall2_lookup_l _ _ _ _ _ Hpt Hr) as (v & Hv & Hh).
    set (F1 := flips_from k (S index) vs).
    rewrite (tile_flip_spec (h ++ concat F1) r v)
      by by apply lookup_app_l_Some.
    simpl.
    rewrite (alter_lookup_insert _ _ _ _ Hv).
    set (h2 := <[r := flipped v]> (h ++ concat F1)).
    assert (Hlen2 : length h2 = length h + length (concat F1)).
    { unfold h2. by rewrite length_insert, length_app. }
    assert (Hpt2 : points_to h2 rs (<[index := flipped v]> vs)).
    { apply points_to_insert; [by apply points_to_app_heap|done..]. }
    rewrite (IH fuel (S index) h2 _ _ Hnd Hpt2) by lia. simpl.
    set (F2 := flips_from k (S index) (<[index := flipped v]> vs)).
    assert (Hr2 : (h2 ++ concat F2) !! r = Some (flipped v)).
    { apply lookup_app_l_Some. unfold h2.
      apply list_lookup_insert_eq. rewrite length_app.
      apply lookup_lt_Some in Hh. lia. }
    rewrite (tile_flip_spec _ _ _ Hr2). simpl. rewrite flipped_involutive.
    f_equal. f_equal.
    + rewrite insert_app_l by (rewrite Hlen2; apply lookup_lt_Some in Hh; lia).
      unfold h2. rewrite list_insert_insert_eq.
      rewrite (list_insert_id (h ++ concat F1))
        by by apply lookup_app_l_Some.
      by rewrite concat_app, app_assoc.
    + rewrite fresh_blocks_app, Hlen2, <- app_assoc. done.
Qed.

Lemma generate_permutations_spec h tiles vs :
  points_to h tiles vs →
  generate_permutations h tiles
  = Some (PermuteState (h ++ concat (swap_perms vs)) tiles
            (fresh_blocks (length h) (swap_perms vs))).
Proof.
  intros Hpt. unfold generate_permutations, swap_perms.
  rewrite <- (points_to_length _ _ _ Hpt).
  by rewrite (permute_spec (length tiles) _ 0 h tiles [] vs) by (done || lia).
Qed.

Lemma generate_flips_spec h rs vs :
  NoDup rs → points_to h rs vs →
  generate_flips h rs
  = Some (h ++ concat (all_flips vs), fresh_blocks (length h) (all_flips vs)).
Proof.
  intros Hnd Hpt. unfold generate_flips, all_flips.
  rewrite <- (points_to_length _ _ _ Hpt).
  by rewrite (flip_spec rs (length rs) _ 0 h [] vs) by (done || lia).
Qed.

Lemma validb_cons x y l :
  validb (x :: y :: l)
  = bool_decide (value_right x = value_left y) && validb (y :: l).
Proof. done. Qed.

Lemma valid_loop_spec h rs vs : points_to h rs vs → ∀ n j,
  j + n + 1 = length rs →
  valid_loop h rs (seq j n) = Some (validb (drop j vs)).
Proof.
  intros Hpt. pose proof (points_to_length _ _ _ Hpt) as Hlen.
  induction n as [|n IH]; intros j Hj; simpl.
  - destruct (lookup_lt_is_Some_2 vs j ltac:(lia)) as [x Hx].
    rewrite (drop_S _ _ _ Hx). rewrite drop_ge by lia. done.
  - destruct (lookup_lt_is_Some_2 rs j ltac:(lia)) as [a Ha].
    destruct (lookup_lt_is_Some_2 rs (j + 1) ltac:(lia)) as [b Hb].
    destruct (Forall2_lookup_l _ _ _ _ _ Hpt Ha) as (x & Hx & Hhx).
    destruct (Forall2_lookup_l _ _ _ _ _ Hpt Hb) as (y & Hy & Hhy).
    rewrite Ha. simpl. rewrite Hhx. simpl. rewrite Hb. simpl.
    rewrite Hhy. simpl.
    rewrite (drop_S _ _ _ Hx).
    replace (j + 1) with (S j) in Hy by lia.
    rewrite (drop_S _ _ _ Hy), validb_cons.
    rewrite <- (drop_S _ _ _ Hy).
    destruct (decide (value_right x ≠ value_left y)) as [Hne|He].
    + by rewrite bool_decide_eq_false_2.
    + rewrite bool_decide_eq_true_2 by by destruct (decide (value_right x = value_left y)).
      simpl. apply IH. lia.
Qed.

Lemma is_valid_chain_spec h rs vs :
  points_to h rs vs → is_valid_chain h rs = Some (validb vs).
Proof.
  intros Hpt. unfold is_valid_chain.
  destruct rs as [|r rs].
  - by inversion Hpt.
  - rewrite (valid_loop_spec _ _ _ Hpt) by (simpl; lia). done.
Qed.

Lemma check_chain_valid_spec h rs vs :
  points_to h rs vs → check_chain_valid h rs = Some (validb vs).
Proof. apply is_valid_chain_spec. Qed.

(** ** The linked list *)

Lemma linked_nodes_length base ts : length (linked_nodes base ts) = length ts.
Proof. unfold linked_nodes. by rewrite length_imap. Qed.

Lemma linked_nodes_lookup base ts j t :
  ts !! j = Some t →
  linked_nodes base ts !! j = Some (linked_node base (length ts) j t).
Proof. intros Ht. unfold linked_nodes. rewrite list_lookup_imap, Ht. done. Qed.

Lemma linked_nodes_snoc base ts t :
  linked_nodes base (ts ++ [t])
  = match length ts with
    | 0 => []
    | S m => alter (λ n, {| DominoNode.tile := node_tile n;
                            DominoNode.prev_node := prev_node n;
                            DominoNode.next_node := Some (base + S m) |})
               m (linked_nodes base ts)
    end ++ [linked_node base (S (length ts)) (length ts) t].
Proof.
  apply list_eq. intros j.
  destruct (decide (j < length ts)) as [Hlt|Hge].
  - destruct (lookup_lt_is_Some_2 ts j Hlt) as [x Hx].
    rewrite (linked_nodes_lookup _ _ _ x)
      by by apply lookup_app_l_Some.
    rewrite length_app. simpl.
    destruct (length ts) as [|m] eqn:Hm; [lia|].
    rewrite lookup_app_l by (rewrite length_alter, linked_nodes_length; lia).
    destruct (decide (m = j)) as [->|Hne].
    + rewrite list_lookup_alter_eq, (linked_nodes_lookup _ _ _ x Hx), Hm.
      simpl. unfold linked_node. simpl.
      rewrite decide_True by lia. done.
    + rewrite list_lookup_alter_ne by done.
      rewrite (linked_nodes_lookup _ _ _ x Hx), Hm.
      unfold linked_node. repeat case_decide; (done || lia).
  - rewrite lookup_app_r;
      [|destruct (length ts) eqn:Hm;
        rewrite ?length_alter, ?linked_nodes_length; simpl; lia].
    destruct (decide (j = length ts)) as [->|Hne].
    + rewrite (linked_nodes_lookup _ _ _ t)
        by (rewrite lookup_app_r, Nat.sub_diag; done).
      rewrite length_app; simpl.
      replace (length ts + 1) with (S (length ts)) by lia.
      destruct (length ts) eqn:Hm;
        rewrite ?length_alter, ?linked_nodes_length, ?Hm;
        simpl; rewrite ?Nat.sub_diag; done.
    + rewrite !lookup_ge_None_2; [done|..].
      * destruct (length ts) eqn:Hm;
          rewrite ?length_alter, ?linked_nodes_length, ?Hm; simpl; lia.
      * rewrite linked_nodes_length, length_app. simpl. lia.
Qed.

Lemma set_next_spec (nh : node_heap) r n v :
  nh !! r = Some n →
  DominoNode.set_next nh r v
  = Some (<[r := {| DominoNode.tile := node_tile n;
                    DominoNode.prev_node := prev_node n;
                    DominoNode.next_node := v |}]> nh).
Proof. intros Hr. unfold DominoNode.set_next. by rewrite Hr. Qed.

Lemma set_prev_spec (nh : node_heap) r n v :
  nh !! r = Some n →
  DominoNode.set_prev nh r v
  = Some (<[r := {| DominoNode.tile := node_tile n;
                    DominoNode.prev_node := v;
                    DominoNode.next_node := next_node n |}]> nh).
Proof. intros Hr. unfold DominoNode.set_prev. by rewrite Hr. Qed.

Lemma append_tile_spec nh0 ts t :
  append_tile (nh0 ++ linked_nodes (length nh0) ts)
    (chain_over (length nh0) (length ts)) t
  = Some (nh0 ++ linked_nodes (length nh0) (ts ++ [t]),
          chain_over (length nh0) (length (ts ++ [t]))).
Proof.
  rewrite linked_nodes_snoc, length_app. simpl.
  unfold append_tile, DominoLinkedChain.append_tile, DominoNode.new.
  destruct (length ts) as [|m] eqn:Hm.
  - apply nil_length_inv in Hm. subst ts. simpl.
    rewrite !app_nil_r. unfold linked_node. simpl.
    by rewrite Nat.add_0_r.
  - simpl.
    assert (Hm' : m < length ts) by lia.
    destruct (lookup_lt_is_Some_2 ts m Hm') as [x Hx].
    pose proof (linked_nodes_lookup (length nh0) _ _ _ Hx) as HL.
    set (L := linked_nodes (length nh0) ts) in *.
    assert (HLlen : length L = S m)
      by (unfold L; by rewrite linked_nodes_length).
    set (fresh := {| DominoNode.tile := t; DominoNode.prev_node := None;
                     DominoNode.next_node := None |}).
    assert (H1 : ((nh0 ++ L) ++ [fresh]) !! (length nh0 + m)
                 = Some (linked_node (length nh0) (length ts) m x)).
    { rewrite lookup_app_l by (rewrite length_app; lia).
      rewrite lookup_app_r by lia.
      by replace (length nh0 + m - length nh0) with m by lia. }
    rewrite (set_next_spec _ _ _ _ H1). simpl.
    rewrite insert_app_l by (rewrite length_app; lia).
    rewrite insert_app_r.
    match goal with
    | |- context [DominoNode.set_prev (?l ++ [fresh]) _ _] =>
        assert (H2 : (l ++ [fresh]) !! length (nh0 ++ L) = Some fresh)
    end.
    { rewrite lookup_app_r by (rewrite !length_app, length_insert; lia).
      by rewrite !length_app, length_insert, Nat.sub_diag. }
    rewrite (set_prev_spec _ _ _ _ H2). simpl.
    rewrite insert_app_r_alt by (rewrite !length_app, length_insert; lia).
    rewrite !length_app, length_insert, Nat.sub_diag. simpl.
    rewrite (alter_lookup_insert _ _ _ _ HL). simpl.
    unfold linked_node. simpl. rewrite decide_False by lia.
    rewrite HLlen, <- app_assoc.
    by replace (m + 1) with (S m) by lia.
Qed.

Lemma make_chain_spec nh variant :
  make_chain nh variant
  = Some (nh ++ linked_nodes (length nh) variant,
          chain_over (length nh) (length variant)).
Proof.
  unfold make_chain.
  assert (Hgen : ∀ ts2 ts1,
    for_each (λ tile '(nh, chain), append_tile nh chain tile) ts2
      (nh ++ linked_nodes (length nh) ts1, chain_over (length nh) (length ts1))
    = Some (nh ++ linked_nodes (length nh) (ts1 ++ ts2),
            chain_over (length nh) (length (ts1 ++ ts2)))).
  { induction ts2 as [|t ts2 IH]; intros ts1; simpl.
    - by rewrite app_nil_r.
    - rewrite append_tile_spec. simpl. rewrite IH.
      by rewrite <- app_assoc. }
  specialize (Hgen variant []). simpl in Hgen.
  by rewrite app_nil_r in Hgen.
Qed.

(** ** The two search loops *)

Lemma find_app_first {A} (f : A → bool) l1 l2 :
  find f (l1 ++ l2)
  = match find f l1 with Some x => Some x | None => find f l2 end.
Proof. induction l1 as [|x l1 IH]; simpl; [done|]. by destruct (f x). Qed.

Lemma points_to_fresh_blocks h F :
  Forall2 (points_to (h ++ concat F)) (fresh_blocks (length h) F) F.
Proof.
  revert h. induction F as [|p F IH]; intros h; simpl; constructor.
  - rewrite app_assoc. apply points_to_app_heap, points_to_seq.
  - specialize (IH (h ++ p)). rewrite length_app, <- app_assoc in IH. done.
Qed.

Lemma fresh_blocks_elem base F rs :
  rs ∈ fresh_blocks base F → Forall (λ r, base ≤ r) rs ∧ NoDup rs.
Proof.
  revert base. induction F as [|p F IH]; intros base; simpl.
  - by intros ?%elem_of_nil.
  - intros [->|Hin]%elem_of_cons.
    + split; [|apply NoDup_seq].
      apply Forall_forall. intros r Hr%elem_of_seq. lia.
    + destruct (IH _ Hin) as [Hb Hnd]. split; [|done].
      eapply Forall_impl; [exact Hb|]. simpl. lia.
Qed.

Lemma fresh_blocks_NoDup base F : Forall NoDup (fresh_blocks base F).
Proof.
  apply Forall_forall. intros rs Hrs. by destruct (fresh_blocks_elem _ _ _ Hrs).
Qed.

Section Search.
Variable valid : tile_heap → list ref → option bool.
Hypothesis valid_spec : ∀ h rs vs,
  points_to h rs vs → valid h rs = Some (validb vs).

Lemma search_variants_spec h nh R F :
  Forall2 (points_to h) R F →
  ∃ res, search_variants valid (World h nh) R = Some res ∧
    match find validb F with
    | None => res = (World h nh, None)
    | Some v => ∃ rs, rs ∈ R ∧ points_to h rs v ∧ res = chain_built h nh rs
    end.
Proof.
  induction 1 as [|rs v R F Hpt HRF IH]; simpl.
  - eauto.
  - rewrite (valid_spec _ _ _ Hpt). simpl.
    destruct (validb v) eqn:Hv.
    + rewrite make_chain_spec. simpl. eexists; split; [done|].
      exists rs. split; [apply list_elem_of_here|done].
    + destruct IH as (res & -> & Hres). eexists; split; [done|].
      destruct (find validb F); [|done].
      destruct Hres as (rs' & ? & ? & ?). exists rs'.
      split; [by apply list_elem_of_further|done].
Qed.

Lemma search_permutations_spec Rp P : ∀ h nh,
  Forall2 (points_to h) Rp P → Forall NoDup Rp →
  ∃ extra res,
    search_permutations valid (World h nh) Rp = Some res ∧
    match find validb (P ≫= all_flips) with
    | None => res = (World (h ++ extra) nh, None)
    | Some v => ∃ rs, Forall (λ r, length h ≤ r) rs ∧
                      points_to (h ++ extra) rs v ∧
                      res = chain_built (h ++ extra) nh rs
    end.
Proof.
  revert P. induction Rp as [|rp Rp IH]; intros P h nh HPt Hnd.
  - inversion HPt; subst. exists [], (World h nh, None). simpl.
    by rewrite app_nil_r.
  - inversion HPt as [|? p ? P' Hp HP']; subst.
    inversion Hnd as [|? ? Hndp Hnd']; subst. simpl.
    rewrite (generate_flips_spec _ _ _ Hndp Hp). simpl.
    set (F := all_flips p).
    destruct (search_variants_spec (h ++ concat F) nh _ _
                (points_to_fresh_blocks h F)) as (res1 & -> & Hres1).
    simpl. rewrite find_app_first.
    destruct (find validb F) as [v|].
    + destruct Hres1 as (rs & Hin & Hrs & ->). simpl.
      exists (concat F). eexists; split; [done|].
      exists rs. by destruct (fresh_blocks_elem _ _ _ Hin).
    + subst res1.
      destruct (IH P' (h ++ concat F) nh) as (extra & res & -> & Hres);
        [|done|].
      { eapply Forall2_impl; [exact HP'|]. intros ? ?.
        apply points_to_app_heap. }
      exists (concat F ++ extra), res. split; [done|].
      rewrite app_assoc.
      change (list_bind _ _ all_flips P') with (P' ≫= all_flips).
      destruct (find validb (P' ≫= all_flips)); [|done].
      destruct Hres as (rs & Hb & ? & ?). exists rs. split; [|done].
      eapply Forall_impl; [exact Hb|]. simpl. intros r.
      rewrite length_app. lia.
Qed.

End Search.

Section Solver.
Variable valid : tile_heap → list ref → option bool.
Hypothesis valid_spec : ∀ h rs vs,
  points_to h rs vs → valid h rs = Some (validb vs).

Lemma solver_spec w tiles vs :
  points_to (tile_store w) tiles vs →
  ∃ o,
    (ps ← generate_permutations (tile_store w) tiles;
     '(w', found) ← search_permutations valid
                      (World (ps_heap ps) (node_store w)) (ps_result ps);
     Some (Outcome w' (ps_tiles ps) found)) = Some o
    ∧ solved w tiles vs o.
Proof.
  intros Hpt. rewrite (generate_permutations_spec _ _ _ Hpt). simpl.
  set (h := tile_store w). set (P := swap_perms vs).
  destruct (search_permutations_spec valid valid_spec _ P (h ++ concat P)
              (node_store w) (points_to_fresh_blocks h P)
              (fresh_blocks_NoDup _ _)) as (extra & res & -> & Hres).
  destruct res as [w' found]. simpl.
  eexists; split; [done|].
  exists (concat P ++ extra). simpl. rewrite app_assoc.
  unfold first_valid, candidates. fold P.
  destruct (find validb (P ≫= all_flips)) as [v|].
  - destruct Hres as (rs & Hb & Hrs & Hres). unfold chain_built in Hres.
    simplify_eq/=. repeat split; try done.
    exists rs. repeat split; try done.
    eapply Forall_impl; [exact Hb|]. simpl. intros r. rewrite length_app.
    fold h. lia.
  - by simplify_eq/=.
Qed.

End Solver.

Lemma build_if_possible_spec w tiles vs :
  points_to (tile_store w) tiles vs →
  ∃ o, build_if_possible w tiles = Some o ∧ solved w tiles vs o.
Proof. apply solver_spec. apply is_valid_chain_spec. Qed.

Lemma build_valid_chain_spec w tiles vs :
  points_to (tile_store w) tiles vs →
  ∃ o, build_valid_chain w tiles = Some o ∧ solved w tiles vs o.
Proof. apply solver_spec. apply check_chain_valid_spec. Qed.

(** ** The enumeration order *)

Lemma flips_from_prefix k : ∀ pre suf,
  length suf = k →
  flips_from k (length pre) (pre ++ suf) = app pre <$> flip_order suf.
Proof.
  induction k as [|k IH]; intros pre suf Hk.
  - apply nil_length_inv in Hk. by subst.
  - destruct suf as [|x r]; simplify_eq/=.
    rewrite alter_app_r_alt, Nat.sub_diag by lia. simpl.
    pose proof (IH (pre ++ [x]) r eq_refl) as H1.
    pose proof (IH (pre ++ [flipped x]) r eq_refl) as H2.
    rewrite length_app, <- app_assoc in H1, H2. simpl in H1, H2.
    replace (length pre + 1) with (S (length pre)) in H1, H2 by lia.
    rewrite H1, H2, fmap_app, <- !list_fmap_compose.
    f_equal; apply list_fmap_ext; intros ? l ?; simpl;
      by rewrite <- app_assoc.
Qed.

Lemma all_flips_flip_order l : all_flips l = flip_order l.
Proof.
  unfold all_flips.
  pose proof (flips_from_prefix (length l) [] l eq_refl) as H.
  simpl in H. rewrite H. apply list_fmap_id.
Qed.

Lemma flip_order_elem p f : f ∈ flip_order p ↔ Forall2 oriented p f.
Proof.
  revert f. induction p as [|x p IH]; intros f; simpl.
  - rewrite list_elem_of_singleton. split; [intros ->; constructor|].
    by inversion 1.
  - rewrite elem_of_app, !list_elem_of_fmap. split.
    + intros [(f' & -> & Hf')|(f' & -> & Hf')];
        (constructor; [|by apply IH]); [by left|by right].
    + inversion 1 as [|? y ? f' [->| ->] Hrest]; subst;
        [left|right]; exists f'; (split; [done|]); by apply IH.
Qed.

Section SwapOrderLemmas.
Context {A : Type}.
Implicit Types (l pre suf : list A).

Lemma swapped_app_r pre suf j :
  swapped (length pre) (length pre + j) (pre ++ suf)
  = pre ++ swapped 0 j suf.
Proof.
  unfold swapped.
  rewrite !lookup_app_r by lia.
  replace (length pre + j - length pre) with j by lia.
  rewrite Nat.sub_diag.
  destruct (suf !! j) as [a|], (suf !! 0) as [b|]; try done.
  rewrite (insert_app_r_alt _ _ (length pre)) by lia.
  rewrite Nat.sub_diag, insert_app_r. done.
Qed.

Lemma insert_cons_perm l j a b :
  l !! j = Some a → a :: <[j := b]> l ≡ₚ b :: l.
Proof.
  revert j. induction l as [|c l IH]; intros [|j] Hj; simplify_eq/=.
  - apply perm_swap.
  - rewrite perm_swap, (IH _ Hj). apply perm_swap.
Qed.

Lemma swapped_head l j y :
  l !! j = Some y → ∃ r, swapped 0 j l = y :: r ∧ y :: r ≡ₚ l.
Proof.
  intros Hj. destruct l as [|x l]; [done|].
  destruct j as [|j]; simplify_eq/=.
  - exists l. by rewrite swapped_diag.
  - exists (<[j := x]> l). split; [|by apply insert_cons_perm].
    unfold swapped. simpl. by rewrite Hj.
Qed.

Lemma bind_seq_shift {B} (g : nat → list B) a n : ∀ b,
  seq (a + b) n ≫= g = seq b n ≫= (λ j, g (a + j)).
Proof.
  induction n as [|n IH]; intros b; [done|]. cbn [seq].
  rewrite !bind_cons. f_equal.
  replace (S (a + b)) with (a + S b) by lia. apply IH.
Qed.

Lemma fmap_bind {B C} (f : B → C) (g : nat → list B) (idx : list nat) :
  f <$> (idx ≫= g) = idx ≫= (λ j, f <$> g j).
Proof.
  induction idx as [|i idx IH]; [done|].
  by rewrite !bind_cons, fmap_app, IH.
Qed.

Lemma perms_from_prefix k : ∀ pre suf,
  length suf = k →
  perms_from k (length pre) (pre ++ suf) = app pre <$> swap_order k suf.
Proof.
  induction k as [|k IH]; intros pre suf Hk.
  - apply nil_length_inv in Hk. by subst.
  - cbn [perms_from swap_order].
    replace (length pre) with (length pre + 0) at 1 by lia.
    rewrite bind_seq_shift, fmap_bind.
    apply Forall_bind_ext, Forall_forall. intros j Hj%elem_of_seq.
    rewrite swapped_app_r.
    destruct (lookup_lt_is_Some_2 suf j ltac:(lia)) as [y Hy].
    destruct (swapped_head _ _ _ Hy) as (r & Hsw & Hperm).
    rewrite Hsw.
    assert (Hr : length r = k).
    { apply Permutation_length in Hperm. simpl in Hperm. lia. }
    pose proof (IH (pre ++ [y]) r Hr) as H1.
    rewrite length_app, <- app_assoc in H1. simpl in H1.
    replace (length pre + 1) with (S (length pre)) in H1 by lia.
    rewrite H1, <- list_fmap_compose.
    apply list_fmap_ext. intros ? l ?; simpl. by rewrite <- app_assoc.
Qed.

Lemma swap_perms_swap_order l : swap_perms l = swap_order (length l) l.
Proof.
  unfold swap_perms.
  pose proof (perms_from_prefix (length l) [] l eq_refl) as H.
  simpl in H. rewrite H. apply list_fmap_id.
Qed.

Lemma swap_order_elem n : ∀ l p,
  length l = n → (p ∈ swap_order n l ↔ p ≡ₚ l).
Proof.
  induction n as [|n IH]; intros l p Hn.
  - apply nil_length_inv in Hn. subst. simpl.
    rewrite list_elem_of_singleton. split; [by intros ->|].
    intros H. by apply Permutation_nil_r in H.
  - cbn [swap_order]. rewrite list_elem_of_bind. split.
    + intros (j & Hp & Hj%elem_of_seq).
      destruct (lookup_lt_is_Some_2 l j ltac:(lia)) as [y Hy].
      destruct (swapped_head _ _ _ Hy) as (r & Hsw & Hperm).
      rewrite Hsw in Hp. apply list_elem_of_fmap in Hp as (p' & -> & Hp').
      apply IH in Hp'.
      * by rewrite Hp'.
      * apply Permutation_length in Hperm. simpl in Hperm. lia.
    + intros Hperm.
      destruct p as [|y p'].
      { apply Permutation_length in Hperm. simpl in Hperm. lia. }
      assert (Hin : y ∈ l) by (rewrite <- Hperm; apply list_elem_of_here).
      apply list_elem_of_lookup in Hin as [j Hj].
      exists j. split; [|apply elem_of_seq; apply lookup_lt_Some in Hj; lia].
      destruct (swapped_head _ _ _ Hj) as (r & -> & Hr).
      apply list_elem_of_fmap. exists p'. split; [done|].
      apply IH.
      * apply Permutation_length in Hr. simpl in Hr. lia.
      * apply (Permutation_cons_inv (a := y)). by rewrite Hr.
Qed.

Lemma swap_perms_elem l p : p ∈ swap_perms l ↔ p ≡ₚ l.
Proof. rewrite swap_perms_swap_order. by apply swap_order_elem. Qed.

End SwapOrderLemmas.

(** ** Traversals of the linked list *)

Section LinkedNodes.
Variables (nh0 : node_heap) (ts : list ref).
Local Abbreviation base := (length nh0).
Local Abbreviation nh := (nh0 ++ linked_nodes base ts).

Lemma linked_lookup j t :
  ts !! j = Some t →
  nh !! (base + j) = Some (linked_node base (length ts) j t).
Proof.
  intros Ht. rewrite lookup_app_r by lia.
  replace (length nh0 + j - length nh0) with j by lia.
  by apply linked_nodes_lookup.
Qed.

Lemma walk_next_linked n : ∀ j fuel,
  j + S n = length ts → S n < fuel →
  walk fuel next_node nh (Some (base + j)) = Some (seq (base + j) (S n)).
Proof.
  induction n as [|n IH]; intros j fuel Hj Hfuel;
    (destruct fuel as [|fuel]; [lia|]);
    destruct (lookup_lt_is_Some_2 ts j ltac:(lia)) as [t Ht];
    cbn [walk]; rewrite (linked_lookup _ _ Ht); simpl.
  - rewrite decide_False by lia. destruct fuel; [lia|]. done.
  - rewrite decide_True by lia.
    replace (base + S j) with (base + (S j)) by done.
    rewrite (IH (S j) fuel) by lia. simpl.
    by replace (base + S j) with (S (base + j)) by lia.
Qed.

Lemma walk_prev_linked j : ∀ fuel,
  j < length ts → S j < fuel →
  walk fuel prev_node nh (Some (base + j)) = Some (rev (seq base (S j))).
Proof.
  induction j as [|j IH]; intros fuel Hj Hfuel;
    (destruct fuel as [|fuel]; [lia|]);
    destruct (lookup_lt_is_Some_2 ts _ Hj) as [t Ht];
    rewrite ?(seq_S (S j)), ?rev_app_distr;
    cbn [walk]; rewrite (linked_lookup _ _ Ht); simpl.
  - destruct fuel; [lia|]. simpl. by rewrite Nat.add_0_r.
  - rewrite (IH fuel) by lia. simpl. done.
Qed.

Lemma forward_nodes_linked :
  forward_nodes nh (chain_over base (length ts))
  = Some (seq base (length ts)).
Proof.
  unfold forward_nodes. destruct (length ts) as [|n] eqn:Hn; [done|].
  cbn [chain_over DominoLinkedChain.node_first].
  pose proof (walk_next_linked n 0 (S (length nh))) as H.
  rewrite Nat.add_0_r in H. apply H; [lia|].
  rewrite length_app, linked_nodes_length. lia.
Qed.

Lemma backward_nodes_linked :
  backward_nodes nh (chain_over base (length ts))
  = Some (rev (seq base (length ts))).
Proof.
  unfold backward_nodes. destruct (length ts) as [|n] eqn:Hn; [done|].
  cbn [chain_over DominoLinkedChain.node_last].
  apply walk_prev_linked; [lia|].
  rewrite length_app, linked_nodes_length. lia.
Qed.

Lemma tiles_of_nodes_linked :
  tiles_of_nodes nh (seq base (length ts)) = Some ts.
Proof.
  unfold tiles_of_nodes. apply mapM_Some.
  apply Forall2_same_length_lookup_2; [by rewrite length_seq|].
  intros j n t Hn Ht. apply lookup_seq in Hn as [-> _].
  by rewrite (linked_lookup _ _ Ht).
Qed.

Lemma chain_tiles_linked :
  chain_tiles nh (chain_over base (length ts)) = Some ts.
Proof.
  unfold chain_tiles. rewrite forward_nodes_linked. simpl.
  apply tiles_of_nodes_linked.
Qed.

Lemma chain_values_linked th vs :
  points_to th ts vs →
  chain_values (World th nh) (chain_over base (length ts)) = Some vs.
Proof.
  intros Hpt. unfold chain_values. simpl. rewrite chain_tiles_linked. simpl.
  by apply mapM_Some.
Qed.

Lemma to_list_loop_linked th vs n : ∀ j fuel acc,
  points_to th ts vs → j + S n = length ts → S n < fuel →
  DominoLinkedChain.to_list_loop fuel th nh (Some (base + j)) acc
  = Some (acc ++ (DominoTile_str <$> drop j vs)).
Proof.
  induction n as [|n IH]; intros j fuel acc Hpt Hj Hfuel;
    pose proof (points_to_length _ _ _ Hpt) as Hlen;
    (destruct fuel as [|fuel]; [lia|]);
    destruct (lookup_lt_is_Some_2 ts j ltac:(lia)) as [t Ht];
    destruct (Forall2_lookup_l _ _ _ _ _ Hpt Ht) as (x & Hx & Hhx);
    cbn [DominoLinkedChain.to_list_loop];
    rewrite (linked_lookup _ _ Ht); simpl; rewrite Hhx; simpl;
    rewrite (drop_S _ _ _ Hx).
  - rewrite decide_False by lia. destruct fuel; [lia|]. simpl.
    by rewrite drop_ge by lia.
  - rewrite decide_True by lia.
    rewrite (IH (S j) fuel) by (done || lia).
    by rewrite <- app_assoc.
Qed.

Lemma to_list_linked th vs :
  points_to th ts vs →
  to_list th nh (chain_over base (length ts))
  = Some (DominoTile_str <$> vs).
Proof.
  intros Hpt. unfold to_list, DominoLinkedChain.to_list.
  destruct (length ts) as [|n] eqn:Hn.
  - apply nil_length_inv in Hn. subst ts. by inversion Hpt.
  - cbn [chain_over DominoLinkedChain.node_first].
    pose proof (to_list_loop_linked th vs n 0 (S (length nh)) [] Hpt) as H.
    rewrite Nat.add_0_r in H. apply H; [lia|].
    rewrite length_app, linked_nodes_length. lia.
Qed.

End LinkedNodes.

(** ** Arrangements *)

Lemma validb_adjacent l : validb l = true ↔ adjacent l.
Proof.
  induction l as [|x l IH]; [by split; [intros _ [|?] ? ? ?|]|].
  destruct l as [|y l].
  - split; [|done]. intros _ [|[|?]] ? ? ? ?; simplify_eq/=.
  - rewrite validb_cons, andb_true_iff, bool_decide_eq_true, IH. split.
    + intros [Hxy Hadj] [|i] a b Ha Hb; simplify_eq/=; [done|].
      by apply (Hadj i).
    + intros Hadj. split; [by apply (Hadj 0)|].
      intros i a b Ha Hb. by apply (Hadj (S i)).
Qed.

Lemma oriented_unordered a b : oriented a b → unordered b = unordered a.
Proof.
  intros [->| ->]; [done|]. destruct a as [l r]. unfold unordered. simpl.
  f_equal; lia.
Qed.

Lemma candidates_elem vs v :
  v ∈ candidates vs ↔ ∃ p, p ≡ₚ vs ∧ Forall2 oriented p v.
Proof.
  unfold candidates. rewrite list_elem_of_bind. split.
  - intros (p & Hv & Hp). exists p. split; [by apply swap_perms_elem|].
    by rewrite all_flips_flip_order, flip_order_elem in Hv.
  - intros (p & Hp & Hv). exists p. split; [|by apply swap_perms_elem].
    by rewrite all_flips_flip_order, flip_order_elem.
Qed.

Lemma first_valid_Some vs v :
  first_valid vs = Some v →
  ∃ p, p ≡ₚ vs ∧ Forall2 oriented p v ∧ adjacent v.
Proof.
  intros [Hin Hv]%find_some.
  apply list_elem_of_In, candidates_elem in Hin as (p & Hp & Hpv).
  exists p. by rewrite <- validb_adjacent.
Qed.

Lemma first_valid_None vs : first_valid vs = None → ¬ chainable vs.
Proof.
  intros Hnone (p & f & Hp & Hpf & Hadj).
  apply validb_adjacent in Hadj.
  rewrite (find_none _ _ Hnone f) in Hadj; [done|].
  apply list_elem_of_In, candidates_elem. eauto.
Qed.

Lemma first_valid_chainable vs : is_Some (first_valid vs) ↔ chainable vs.
Proof.
  split.
  - intros [v (p & ? & ? & ?)%first_valid_Some]. by exists p, v.
  - intros Hc. destruct (first_valid vs) eqn:E; [done|].
    by apply first_valid_None in E.
Qed.

(** What [solved] says about the returned value. *)
Lemma solved_chain w tiles vs o :
  solved w tiles vs o →
  match first_valid vs with
  | None => out_chain o = None
  | Some v =>
      ∃ chain rs,
        out_chain o = Some chain ∧
        chain_tiles (node_store (out_world o)) chain = Some rs ∧
        Forall (λ r, length (tile_store w) ≤ r) rs ∧
        chain_values (out_world o) chain = Some v ∧
        to_list (tile_store (out_world o)) (node_store (out_world o)) chain
        = Some (DominoTile_str <$> v)
  end.
Proof.
  intros (extra & Hth & _ & H). destruct (first_valid vs) as [v|]; [|tauto].
  destruct H as (rs & Hfresh & Hpt & Hnh & Hch).
  exists (chain_over (length (node_store w)) (length rs)), rs.
  destruct o as [[th nh] tiles' chain]. simplify_eq/=.
  split_and!; try done.
  - apply chain_tiles_linked.
  - by apply chain_values_linked.
  - by apply to_list_linked.
Qed.

Lemma solved_decides w tiles vs o :
  solved w tiles vs o →
  (is_Some (out_chain o) ↔ chainable vs) ∧
  (out_chain o = None ↔ ¬ chainable vs).
Proof.
  intros Hs%solved_chain. rewrite <- first_valid_chainable.
  destruct (first_valid vs) as [v|].
  - destruct Hs as (chain & rs & -> & _). split; split; try done.
    intros H. by destruct H.
  - rewrite Hs. split; split; try done; try by intros [? ?].
Qed.

Lemma example_points_to :
  points_to (tile_store (fresh_world example_tiles)) [0; 1; 2] example_tiles.
Proof. repeat constructor. Qed.

Lemma candidates_code_candidates vs : candidates vs = code_candidates vs.
Proof.
  unfold candidates, code_candidates. rewrite swap_perms_swap_order.
  apply list_bind_ext; [|done]. apply all_flips_flip_order.
Qed.

(** ** Characters *)

Lemma append_empty_r (s : string) : (s ++ EmptyString)%string = s.
Proof. induction s as [|c s IH]; [done|]. simpl. by rewrite IH. Qed.

Lemma concat_cons ch chs :
  String.concat EmptyString (ch :: chs)
  = (ch ++ String.concat EmptyString chs)%string.
Proof. destruct chs; simpl; [by rewrite append_empty_r|done]. Qed.

Lemma characters_nil s : characters s = [] → s = EmptyString.
Proof.
  destruct s as [|c s]; [done|]. simpl.
  destruct (characters s) as [|ch chs]; [done|].
  by destruct (starts_continued ch).
Qed.

Lemma characters_head b s :
  ∃ r chs, characters (String b s) = String b r :: chs.
Proof.
  simpl. destruct (characters s) as [|ch chs]; [by eauto|].
  destruct (starts_continued ch); eauto.
Qed.

Lemma characters_step c s :
  characters (String c s)
  = match characters s with
    | ch :: chs =>
        if starts_continued ch then String c ch :: chs
        else String c EmptyString :: ch :: chs
    | [] => [String c EmptyString]
    end.
Proof. done. Qed.

Lemma characters_cons c s :
  starts_continued s = false →
  characters (String c s) = String c EmptyString :: characters s.
Proof.
  intros Hs. rewrite characters_step. destruct s as [|b s]; [done|].
  destruct (characters_head b s) as (r & chs & ->).
  simpl in Hs |- *. by rewrite Hs.
Qed.

Lemma characters_app s1 s2 :
  starts_continued s2 = false →
  characters (s1 ++ s2) = characters s1 ++ characters s2.
Proof.
  intros Hs2. induction s1 as [|c s1 IH]; [done|].
  cbn [String.append]. rewrite !characters_step, IH.
  destruct (characters s1) as [|ch chs] eqn:Hs1.
  - apply characters_nil in Hs1 as ->. simpl.
    destruct s2 as [|b s2]; [done|].
    destruct (characters_head b s2) as (r & chs & ->).
    simpl in Hs2 |- *. by rewrite Hs2.
  - simpl. by destruct (starts_continued ch).
Qed.

Lemma concat_characters s : String.concat EmptyString (characters s) = s.
Proof.
  induction s as [|c s IH]; [done|]. rewrite characters_step.
  destruct (characters s) as [|ch chs] eqn:Hch.
  - by apply characters_nil in Hch as ->.
  - rewrite concat_cons in IH.
    destruct (starts_continued ch); rewrite !concat_cons; simpl;
      by rewrite ?concat_cons, IH.
Qed.

(** ** White space at the ends *)

Lemma rstrip_keep chs ch :
  last chs = Some ch → is_space ch = false → rstrip chs = chs.
Proof.
  intros Hlast Hch. induction chs as [|ch0 chs IH]; [done|].
  destruct chs as [|ch1 chs].
  - simpl in Hlast |- *. injection Hlast as ->. by rewrite Hch.
  - change (rstrip (ch0 :: ch1 :: chs))
      with (match rstrip (ch1 :: chs) with
            | [] => if is_space ch0 then [] else [ch0]
            | r => ch0 :: r
            end).
    by rewrite IH.
Qed.

Lemma strip_keep s ch0 chs chN :
  characters s = ch0 :: chs → is_space ch0 = false →
  last (ch0 :: chs) = Some chN → is_space chN = false →
  strip s = s.
Proof.
  intros Hs H0 Hlast HN. unfold strip. rewrite Hs. cbn [lstrip]. rewrite H0.
  rewrite (rstrip_keep _ _ Hlast HN), <- Hs. apply concat_characters.
Qed.

Lemma strip_padded s :
  starts_continued s = false → strip (String " " s) = strip s.
Proof.
  intros Hs. unfold strip. rewrite (characters_cons _ _ Hs). cbn [lstrip].
  by change (is_space (String " " EmptyString)) with true.
Qed.

(** ** Digits *)

Lemma decimal_is_digit ch a : digit_value ch = Some a → is_digit ch = true.
Proof. unfold digit_value, is_digit. by intros ->. Qed.

Lemma int_of_char_nonneg ch a : int_of_char ch = Some a → (0 ≤ a)%Z.
Proof.
  unfold int_of_char, unicode_decimal.
  destruct (find _ decimal_zeros); [|done]. simpl. intros [= <-]. lia.
Qed.

(** A character of one byte that is a digit is a decimal digit. *)
Lemma byte_digit_decimal c :
  is_digit (String c EmptyString) = true →
  digit_value (String c EmptyString) ≠ None.
Proof. destruct c as [[] [] [] [] [] [] [] []]; by vm_compute. Qed.

(** ** The token checks *)

Lemma format_check_two_digit part :
  negb (length (characters part) =? 2)%nat || negb (str_isdigit part) = false
  ↔ two_digit_token part.
Proof.
  unfold str_isdigit. split.
  - destruct (characters part) as [|ch0 [|ch1 [|ch2 chs]]] eqn:Hch;
      simpl; try done.
    rewrite andb_true_r.
    destruct (is_digit ch0) eqn:H0, (is_digit ch1) eqn:H1;
      rewrite ?andb_false_r; try done.
    intros _. by exists ch0, ch1.
  - intros (ch0 & ch1 & Hch & H0 & H1). rewrite Hch. simpl.
    rewrite H0, H1. destruct part; [done|]. done.
Qed.

Lemma two_digit_token_dec part : two_digit_token part ∨ ¬ two_digit_token part.
Proof.
  destruct (negb (length (characters part) =? 2)%nat
            || negb (str_isdigit part)) eqn:Hc.
  - right. intros H%format_check_two_digit. congruence.
  - left. by apply format_check_two_digit.
Qed.

Lemma token_tile_two_digit part x : token_tile part x → two_digit_token part.
Proof.
  intros (ch0 & ch1 & a & b & Hch & Ha & Hb & _).
  exists ch0, ch1. eauto using decimal_is_digit.
Qed.

Lemma unreadable_two_digit part : unreadable part → two_digit_token part.
Proof. intros (ch0 & ch1 & Hch & H0 & H1 & _). by exists ch0, ch1. Qed.

Lemma unreadable_not_well_formed part : unreadable part → ¬ well_formed part.
Proof.
  intros (ch0 & ch1 & Hch & _ & _ & Hnone)
    (x & ch0' & ch1' & a & b & Hch' & Ha & Hb & _).
  rewrite Hch in Hch'. injection Hch' as <- <-.
  destruct Hnone; congruence.
Qed.

(** A token is well formed, or not two digits, or two decimal digits with
    one above 6, or two digits that are not both decimal. *)
Lemma token_cases part :
  well_formed part ∨
  (¬ well_formed part ∧ ¬ unreadable part) ∨
  unreadable part.
Proof.
  destruct (two_digit_token_dec part) as [(ch0 & ch1 & Hch & H0 & H1)|Hnot].
  - destruct (digit_value ch0) as [a|] eqn:Ha;
      [destruct (digit_value ch1) as [b|] eqn:Hb|].
    + destruct (Z_le_dec a 6) as [Hale|Hale];
        [destruct (Z_le_dec b 6) as [Hble|Hble]|].
      * left. exists (tile a b), ch0, ch1, a, b. by split_and!.
      * right; left. split.
        -- intros (x & ch0' & ch1' & a' & b' & Hch' & Ha' & Hb' & _ & ? & _).
           rewrite Hch in Hch'. injection Hch' as <- <-.
           by simplify_eq.
        -- intros (ch0' & ch1' & Hch' & _ & _ & Hnone).
           rewrite Hch in Hch'. injection Hch' as <- <-.
           destruct Hnone; congruence.
      * right; left. split.
        -- intros (x & ch0' & ch1' & a' & b' & Hch' & Ha' & Hb' & ? & _).
           rewrite Hch in Hch'. injection Hch' as <- <-.
           by simplify_eq.
        -- intros (ch0' & ch1' & Hch' & _ & _ & Hnone).
           rewrite Hch in Hch'. injection Hch' as <- <-.
           destruct Hnone; congruence.
    + right; right. exists ch0, ch1. by split_and!; [..|right].
    + right; right. exists ch0, ch1. by split_and!; [..|left].
  - right; left. split.
    + intros [x Hx]. by apply Hnot, (token_tile_two_digit _ x).
    + by intros ?%unreadable_two_digit.
Qed.

Lemma parse_parts_step_good h tiles part rest x :
  token_tile part x →
  parse_parts h tiles (part :: rest)
  = parse_parts (h ++ [x]) (tiles ++ [length h]) rest.
Proof.
  intros Hx. pose proof (token_tile_two_digit _ _ Hx) as Htwo.
  destruct Hx as (ch0 & ch1 & a & b & Hch & Ha & Hb & Hale & Hble & ->).
  cbn [parse_parts].
  rewrite (proj2 (format_check_two_digit _) Htwo), Hch. simpl.
  unfold digit_value in Ha, Hb. unfold int_of_char. rewrite Ha, Hb. simpl.
  by rewrite (proj2 (Z.ltb_ge _ _) Hale), (proj2 (Z.ltb_ge _ _) Hble).
Qed.

Lemma parse_parts_step_format h tiles part rest :
  ¬ two_digit_token part →
  parse_parts h tiles (part :: rest) = Some (Rejected format_error).
Proof.
  intros Hbad. cbn [parse_parts].
  destruct (negb (length (characters part) =? 2)%nat
            || negb (str_isdigit part)) eqn:Hc; [done|].
  by apply format_check_two_digit in Hc.
Qed.

Lemma parse_parts_step_range h tiles part rest :
  two_digit_token part → ¬ well_formed part → ¬ unreadable part →
  parse_parts h tiles (part :: rest) = Some (Rejected range_error).
Proof.
  intros Htwo Hbad Hread. cbn [parse_parts].
  rewrite (proj2 (format_check_two_digit _) Htwo).
  destruct Htwo as (ch0 & ch1 & Hch & H0 & H1). rewrite Hch. simpl.
  unfold int_of_char.
  destruct (unicode_decimal (code_point ch0)) as [a|] eqn:Ha;
    [|destruct Hread; exists ch0, ch1; by split_and!; [..|left]].
  destruct (unicode_decimal (code_point ch1)) as [b|] eqn:Hb;
    [|destruct Hread; exists ch0, ch1; by split_and!; [..|right]].
  simpl. destruct ((6 <? a)%Z || (6 <? b)%Z) eqn:Hr; [done|].
  apply orb_false_iff in Hr as [Hale%Z.ltb_ge Hble%Z.ltb_ge].
  destruct Hbad. exists (tile a b), ch0, ch1, a, b. by split_and!.
Qed.

Lemma parse_parts_step_raise h tiles part rest :
  unreadable part → parse_parts h tiles (part :: rest) = None.
Proof.
  intros Hbad. pose proof (unreadable_two_digit _ Hbad) as Htwo.
  destruct Hbad as (ch0 & ch1 & Hch & _ & _ & Hnone). cbn [parse_parts].
  rewrite (proj2 (format_check_two_digit _) Htwo), Hch. simpl.
  unfold digit_value in Hnone. unfold int_of_char.
  destruct Hnone as [-> | Hb]; [done|]. rewrite Hb.
  by destruct (unicode_decimal (code_point ch0)).
Qed.

Lemma parse_parts_good parts : ∀ h tiles vs,
  Forall2 token_tile parts vs →
  parse_parts h tiles parts
  = Some (Accepted (h ++ vs) (tiles ++ seq (length h) (length vs))).
Proof.
  induction parts as [|part parts IH]; intros h tiles vs Hvs;
    inversion Hvs as [|? x ? vs' Hx Hrest]; subst.
  - simpl. by rewrite !app_nil_r.
  - rewrite (parse_parts_step_good _ _ _ _ _ Hx), (IH _ _ _ Hrest).
    rewrite <- !app_assoc, length_app. simpl.
    by replace (length h + 1) with (S (length h)) by lia.
Qed.

Lemma parse_parts_bad pre : ∀ h tiles bad rest,
  Forall well_formed pre → ¬ well_formed bad → ¬ unreadable bad →
  ∃ message,
    parse_parts h tiles (pre ++ bad :: rest) = Some (Rejected message) ∧
    (two_digit_token bad → message = range_error) ∧
    (¬ two_digit_token bad → message = format_error).
Proof.
  induction pre as [|part pre IH]; intros h tiles bad rest Hpre Hbad Hread.
  - simpl app. destruct (two_digit_token_dec bad) as [Htwo|Hnot].
    + exists range_error. by rewrite parse_parts_step_range.
    + exists format_error. by rewrite parse_parts_step_format.
  - inversion Hpre as [|? ? [x Hx] Hpre']; subst. simpl app.
    rewrite (parse_parts_step_good _ _ _ _ _ Hx). by apply IH.
Qed.

Lemma parse_parts_raise pre : ∀ h tiles bad rest,
  Forall well_formed pre → unreadable bad →
  parse_parts h tiles (pre ++ bad :: rest) = None.
Proof.
  induction pre as [|part pre IH]; intros h tiles bad rest Hpre Hbad.
  - by apply parse_parts_step_raise.
  - inversion Hpre as [|? ? [x Hx] Hpre']; subst. simpl app.
    rewrite (parse_parts_step_good _ _ _ _ _ Hx). by apply IH.
Qed.

Lemma solver_calls_app es1 es2 :
  solver_calls (es1 ++ es2) = solver_calls es1 ++ solver_calls es2.
Proof. apply omap_app. Qed.

Lemma tokens_empty : tokens EmptyString = [EmptyString].
Proof. done. Qed.

Lemma not_well_formed_empty : ¬ well_formed EmptyString.
Proof. by intros (x & ch0 & ch1 & a & b & ? & _). Qed.

(** ** Rendered tiles are tokens *)

Lemma digit_char_facts a :
  (0 ≤ a ≤ 6)%Z →
  str_int a = String (digit_char a) EmptyString ∧
  is_continuation (digit_char a) = false ∧
  Ascii.eqb (digit_char a) "," = false ∧
  is_space (String (digit_char a) EmptyString) = false ∧
  digit_value (String (digit_char a) EmptyString) = Some a.
Proof.
  intros Ha.
  assert (a = 0 ∨ a = 1 ∨ a = 2 ∨ a = 3 ∨ a = 4 ∨ a = 5 ∨ a = 6)%Z
    as [->|[->|[->|[->|[->|[->| ->]]]]]] by lia;
    by vm_compute.
Qed.

Lemma characters_two c0 c1 :
  is_continuation c1 = false →
  characters (String c0 (String c1 EmptyString))
  = [String c0 EmptyString; String c1 EmptyString].
Proof. intros H1. by rewrite characters_cons. Qed.

Lemma strip_two c0 c1 :
  is_continuation c1 = false →
  is_space (String c0 EmptyString) = false →
  is_space (String c1 EmptyString) = false →
  strip (String c0 (String c1 EmptyString)) = String c0 (String c1 EmptyString).
Proof.
  intros Hc H0 H1.
  by apply (strip_keep _ _ _ (String c1 EmptyString) (characters_two c0 c1 Hc)).
Qed.

Lemma render_token x :
  in_range x →
  strip (DominoTile_str x) = DominoTile_str x ∧
  token_tile (DominoTile_str x) x.
Proof.
  destruct x as [l r]. intros [Hl Hr]. simpl in Hl, Hr.
  destruct (digit_char_facts l Hl) as (Hsl & Hcl & _ & Hspl & Hvl).
  destruct (digit_char_facts r Hr) as (Hsr & Hcr & _ & Hspr & Hvr).
  unfold DominoTile_str. simpl. rewrite Hsl, Hsr. simpl. split.
  - by apply strip_two.
  - exists (String (digit_char l) EmptyString),
      (String (digit_char r) EmptyString), l, r.
    split_and!; try done; try lia. by apply characters_two.
Qed.

Lemma oriented_in_range a b : oriented a b → in_range a → in_range b.
Proof. intros [->| ->]; [done|]. destruct a. unfold in_range. simpl. tauto. Qed.

Lemma arrangement_in_range vs p v :
  p ≡ₚ vs → Forall2 oriented p v → Forall in_range vs → Forall in_range v.
Proof.
  intros Hp Hpv Hvs. rewrite <- Hp in Hvs. clear Hp.
  induction Hpv as [|a b p v Hab _ IH]; [done|].
  inversion Hvs; subst. constructor; [by eapply oriented_in_range|auto].
Qed.

Lemma arrangement_unordered vs p v :
  p ≡ₚ vs → Forall2 oriented p v → unordered <$> v ≡ₚ unordered <$> vs.
Proof.
  intros Hp Hpv.
  assert (unordered <$> v = unordered <$> p) as ->; [|by rewrite Hp].
  clear Hp. induction Hpv as [|a b p v Hab _ IH]; [done|].
  by rewrite !fmap_cons, IH, (oriented_unordered _ _ Hab).
Qed.

(** ** The model at work *)

Example swap_order_of_three :
  swap_order 3 [1; 2; 3]
  = [[1; 2; 3]; [1; 3; 2]; [2; 1; 3]; [2; 3; 1]; [3; 2; 1]; [3; 1; 2]].
Proof. reflexivity. Qed.

Example lex_order_of_three :
  lex_order 3 [1; 2; 3]
  = [[1; 2; 3]; [1; 3; 2]; [2; 1; 3]; [2; 3; 1]; [3; 1; 2]; [3; 2; 1]].
Proof. reflexivity. Qed.

Example flip_order_of_two :
  flip_order [tile 1 2; tile 3 4]
  = [[tile 1 2; tile 3 4]; [tile 1 2; tile 4 3];
     [tile 2 1; tile 3 4]; [tile 2 1; tile 4 3]].
Proof. reflexivity. Qed.

(** The tiles 02, 04, 42 of the problem statement: the solver answers
    20, 04, 42 and leaves the caller's list as it was. *)
Example solver_on_example_tiles :
  ∃ o chain,
    build_if_possible (fresh_world example_tiles) [0; 1; 2] = Some o ∧
    out_tiles o = [0; 1; 2] ∧
    out_chain o = Some chain ∧
    to_list (tile_store (out_world o)) (node_store (out_world o)) chain
    = Some ["20"; "04"; "42"]%string.
Proof. by vm_compute; eexists _, _. Qed.

(** No tile at all: the solver returns an empty chain object, not [None]. *)
Example solver_on_no_tile :
  build_if_possible (fresh_world []) []
  = Some (Outcome (World [] []) [] (Some DominoLinkedChain.new)).
Proof. reflexivity. Qed.

(** A session: a range violation, a format violation, then a well-formed
    entry that cannot be arranged. *)
Example session_with_rejected_entries :
  let st := main ["1"; "72"; "a2, 00"; " 31,00 , 13 "; "3"]%string in
  all_inputs st = ["31,00 , 13"]%string ∧
  solver_calls (events st) = [[tile 3 1; tile 0 0; tile 1 3]] ∧
  (range_error ∈ printed (events st)) ∧
  (format_error ∈ printed (events st)) ∧
  at_mode st = Finished.
Proof.
  vm_compute. split_and!; try done.
  - do 6 apply list_elem_of_further. apply list_elem_of_here.
  - do 8 apply list_elem_of_further. apply list_elem_of_here.
Qed.

(** Entries beyond ASCII.  Full-width digits are decimal digits: the entry
    is read, recorded as typed and solved. *)
Example full_width_entry_is_read :
  let st := add_attempt (Session [] [] (World [] []) AtAdd) "０２, ２４" in
  all_inputs st = ["０２, ２４"]%string ∧
  solver_calls (events st) = [[tile 0 2; tile 2 4]] ∧
  at_mode st = AtMenu.
Proof. by vm_compute. Qed.

(** A no-break space (bytes 194, 160) and an ideographic space (bytes 227,
    128, 128) are white space. *)
Example wide_spaces_are_stripped :
  strip (String (ascii_of_nat 194) (String (ascii_of_nat 160)
           ("02" ++ String (ascii_of_nat 227) (String (ascii_of_nat 128)
                      (String (ascii_of_nat 128) EmptyString)))))
  = "02"%string.
Proof. reflexivity. Qed.

(** A superscript two is a digit and no decimal digit: the token passes the
    format check, [int] raises, and the session is over with nothing
    printed, recorded or solved. *)
Example superscript_entry_raises :
  let st := main ["1"; "²2"; "3"]%string in
  at_mode st = Crashed ∧
  all_inputs st = [] ∧
  solver_calls (events st) = [] ∧
  events st = events (fold_left step ["1"%string]
                        (Session []
                           (Print "Домино — обработка списков костей"
                              :: menu_events)
                           (World [] []) AtMenu)).
Proof. by vm_compute. Qed.

(** * Part IV: the claims *)

(** C1: on every list of tiles the solver returns a chain exactly when some
    permutation of the tiles, each in some orientation, has every adjacent
    pair matching, and returns [None] exactly when there is none; this holds
    for [DominoLinkedChain.build_if_possible] and for [build_valid_chain],
    whatever the tile values are (in particular for values in 0..6). *)
Theorem C1_solver_decides_chainability w tiles vs :
  points_to (tile_store w) tiles vs →
  (∃ o, build_if_possible w tiles = Some o ∧
        (is_Some (out_chain o) ↔ chainable vs) ∧
        (out_chain o = None ↔ ¬ chainable vs)) ∧
  (∃ o, build_valid_chain w tiles = Some o ∧
        (is_Some (out_chain o) ↔ chainable vs) ∧
        (out_chain o = None ↔ ¬ chainable vs)).
Proof.
  intros Hpt. split.
  - destruct (build_if_possible_spec _ _ _ Hpt) as (o & Ho & Hs).
    exists o. split; [done|]. by eapply solved_decides.
  - destruct (build_valid_chain_spec _ _ _ Hpt) as (o & Ho & Hs).
    exists o. split; [done|]. by eapply solved_decides.
Qed.

Lemma C1_witness :
  (∃ o, build_if_possible (fresh_world example_tiles) [0; 1; 2] = Some o ∧
        (is_Some (out_chain o) ↔ chainable example_tiles) ∧
        (out_chain o = None ↔ ¬ chainable example_tiles)) ∧
  (∃ o, build_valid_chain (fresh_world example_tiles) [0; 1; 2] = Some o ∧
        (is_Some (out_chain o) ↔ chainable example_tiles) ∧
        (out_chain o = None ↔ ¬ chainable example_tiles)).
Proof.
  apply (C1_solver_decides_chainability (fresh_world example_tiles) [0; 1; 2]
           example_tiles).
  repeat constructor.
Defined.

(** C2: when the solver succeeds, the tiles of the returned chain, read from
    [node_first] along [next_node], are as many as the input tiles, have the
    same multiset of unordered value pairs as the input, and every adjacent
    pair matches right value to left value. *)
Theorem C2_returned_chain_is_an_arrangement w tiles vs :
  points_to (tile_store w) tiles vs →
  ∃ o, build_if_possible w tiles = Some o ∧
    ∀ chain, out_chain o = Some chain →
      ∃ v, chain_values (out_world o) chain = Some v ∧
           length v = length tiles ∧
           unordered <$> v ≡ₚ unordered <$> vs ∧
           adjacent v.
Proof.
  intros Hpt. destruct (build_if_possible_spec _ _ _ Hpt) as (o & Ho & Hs).
  exists o. split; [done|]. intros chain Hchain.
  apply solved_chain in Hs.
  destruct (first_valid vs) as [v|] eqn:Hv; [|congruence].
  destruct Hs as (chain' & rs & Hc & _ & _ & Hvals & _).
  assert (chain' = chain) as -> by congruence.
  exists v. split; [done|].
  apply first_valid_Some in Hv as (p & Hp & Hpv & Hadj).
  split_and!; [|  |done].
  - rewrite <- (Forall2_length _ _ _ Hpv), (Permutation_length Hp).
    symmetry. by eapply points_to_length.
  - assert (unordered <$> v = unordered <$> p) as ->; [|by rewrite Hp].
    clear -Hpv. induction Hpv as [|a b p v Hab _ IH]; [done|].
    by rewrite !fmap_cons, IH, (oriented_unordered _ _ Hab).
Qed.

Lemma C2_witness :
  ∃ o, build_if_possible (fresh_world example_tiles) [0; 1; 2] = Some o ∧
    ∀ chain, out_chain o = Some chain →
      ∃ v, chain_values (out_world o) chain = Some v ∧
           length v = length [0; 1; 2] ∧
           unordered <$> v ≡ₚ unordered <$> example_tiles ∧
           adjacent v.
Proof.
  apply (C2_returned_chain_is_an_arrangement (fresh_world example_tiles)
           [0; 1; 2] example_tiles).
  repeat constructor.
Defined.

(** C3: on the three tiles 31, 00, 13 the solver returns [None], and no
    permutation with any orientation of them satisfies the adjacency rule. *)
Theorem C3_tiles_31_00_13_fail w tiles :
  points_to (tile_store w) tiles [tile 3 1; tile 0 0; tile 1 3] →
  (∃ o, build_if_possible w tiles = Some o ∧ out_chain o = None) ∧
  ¬ chainable [tile 3 1; tile 0 0; tile 1 3].
Proof.
  intros Hpt.
  assert (Hnone : first_valid [tile 3 1; tile 0 0; tile 1 3] = None)
    by by vm_compute.
  split; [|by apply first_valid_None].
  destruct (build_if_possible_spec _ _ _ Hpt) as (o & Ho & Hs).
  exists o. split; [done|]. apply solved_chain in Hs. by rewrite Hnone in Hs.
Qed.

Lemma C3_witness :
  (∃ o, build_if_possible (fresh_world [tile 3 1; tile 0 0; tile 1 3])
          [0; 1; 2] = Some o ∧ out_chain o = None) ∧
  ¬ chainable [tile 3 1; tile 0 0; tile 1 3].
Proof.
  apply (C3_tiles_31_00_13_fail (fresh_world [tile 3 1; tile 0 0; tile 1 3])
           [0; 1; 2]).
  repeat constructor.
Defined.

(** C4: on a list of no tile or of one tile the solver succeeds without
    raising: the returned chain holds exactly the input tiles (none, or the
    one tile as given), and [to_list] renders them. *)
Theorem C4_short_lists_succeed w tiles vs :
  points_to (tile_store w) tiles vs → length tiles ≤ 1 →
  ∃ o chain,
    build_if_possible w tiles = Some o ∧
    out_chain o = Some chain ∧
    chain_values (out_world o) chain = Some vs ∧
    to_list (tile_store (out_world o)) (node_store (out_world o)) chain
    = Some (DominoTile_str <$> vs).
Proof.
  intros Hpt Hlen. destruct (build_if_possible_spec _ _ _ Hpt) as (o & Ho & Hs).
  apply solved_chain in Hs.
  assert (Hv : first_valid vs = Some vs).
  { rewrite (points_to_length _ _ _ Hpt) in Hlen.
    destruct vs as [|x [|y vs]]; [done|done|simpl in Hlen; lia]. }
  rewrite Hv in Hs. destruct Hs as (chain & rs & ? & _ & _ & ? & ?).
  by exists o, chain.
Qed.

Lemma C4_witness :
  ∃ o chain,
    build_if_possible (fresh_world [tile 5 5]) [0] = Some o ∧
    out_chain o = Some chain ∧
    chain_values (out_world o) chain = Some [tile 5 5] ∧
    to_list (tile_store (out_world o)) (node_store (out_world o)) chain
    = Some (DominoTile_str <$> [tile 5 5]).
Proof.
  apply (C4_short_lists_succeed (fresh_world [tile 5 5]) [0] [tile 5 5]).
  - repeat constructor.
  - simpl. lia.
Defined.

(** C5: after the solver returns, with a chain or with [None], the caller's
    list holds the same tile objects in the original order, every object
    that existed before the call has its original values, and the tiles of a
    returned chain are objects created during the call, none of them an
    object of the caller's list. *)
Theorem C5_caller_list_and_tiles_unchanged w tiles vs :
  points_to (tile_store w) tiles vs →
  ∃ o, build_if_possible w tiles = Some o ∧
    out_tiles o = tiles ∧
    (∃ extra, tile_store (out_world o) = tile_store w ++ extra) ∧
    points_to (tile_store (out_world o)) (out_tiles o) vs ∧
    ∀ chain, out_chain o = Some chain →
      ∃ rs, chain_tiles (node_store (out_world o)) chain = Some rs ∧
            ∀ r, r ∈ rs → (r ∉ tiles) ∧ (length (tile_store w) ≤ r).
Proof.
  intros Hpt. destruct (build_if_possible_spec _ _ _ Hpt) as (o & Ho & Hs).
  exists o. split; [done|].
  pose proof (solved_chain _ _ _ _ Hs) as Hc.
  destruct Hs as (extra & Hth & Htiles & _).
  split_and!; [done|by exists extra| |].
  - rewrite Hth, Htiles. by apply points_to_app_heap.
  - intros chain Hchain.
    destruct (first_valid vs) as [v|]; [|congruence].
    destruct Hc as (chain' & rs & Hc & Hrs & Hfresh & _).
    assert (chain' = chain) as -> by congruence.
    exists rs. split; [done|]. intros r Hr.
    pose proof (proj1 (Forall_forall _ _) Hfresh r Hr) as Hge.
    split; [|done]. intros Hin.
    pose proof (proj1 (Forall_forall _ _) (points_to_bound _ _ _ Hpt) r Hin).
    simpl in *. lia.
Qed.

Lemma C5_witness :
  ∃ o, build_if_possible (fresh_world example_tiles) [0; 1; 2] = Some o ∧
    out_tiles o = [0; 1; 2] ∧
    (∃ extra, tile_store (out_world o)
              = tile_store (fresh_world example_tiles) ++ extra) ∧
    points_to (tile_store (out_world o)) (out_tiles o) example_tiles ∧
    ∀ chain, out_chain o = Some chain →
      ∃ rs, chain_tiles (node_store (out_world o)) chain = Some rs ∧
            ∀ r, r ∈ rs →
              (r ∉ [0; 1; 2]) ∧
              (length (tile_store (fresh_world example_tiles)) ≤ r).
Proof.
  apply (C5_caller_list_and_tiles_unchanged (fresh_world example_tiles)
           [0; 1; 2] example_tiles).
  repeat constructor.
Defined.

(** C6: for tiles with values in 0..6, when the solver succeeds, the strings
    [to_list] renders for the chain (two characters per tile: the left digit,
    then the right digit) pass the token checks of [main] and are read back
    as tile objects with the values of the chain's tiles, whose unordered
    value pairs are, as a multiset, those of the original input. *)
Theorem C6_render_and_reparse w tiles vs :
  points_to (tile_store w) tiles vs → Forall in_range vs →
  ∃ o, build_if_possible w tiles = Some o ∧
    ∀ chain, out_chain o = Some chain →
      ∃ strs v,
        to_list (tile_store (out_world o)) (node_store (out_world o)) chain
        = Some strs ∧
        strs = DominoTile_str <$> v ∧
        (∀ h, ∃ h' rs,
           parse_parts h [] (strip <$> strs) = Some (Accepted h' rs) ∧
           points_to h' rs v) ∧
        unordered <$> v ≡ₚ unordered <$> vs.
Proof.
  intros Hpt Hrange.
  destruct (build_if_possible_spec _ _ _ Hpt) as (o & Ho & Hs).
  exists o. split; [done|]. intros chain Hchain.
  apply solved_chain in Hs.
  destruct (first_valid vs) as [v|] eqn:Hv; [|congruence].
  destruct Hs as (chain' & rs & Hc & _ & _ & _ & Hlist).
  assert (chain' = chain) as -> by congruence.
  apply first_valid_Some in Hv as (p & Hp & Hpv & _).
  pose proof (arrangement_in_range _ _ _ Hp Hpv Hrange) as Hv.
  exists (DominoTile_str <$> v), v. split_and!; [done|done| |].
  - intros h. exists (h ++ v), (seq (length h) (length v)).
    split; [|apply points_to_seq].
    rewrite (parse_parts_good _ h [] v); [done|].
    clear -Hv. induction Hv as [|x v Hx _ IH]; [constructor|].
    rewrite !fmap_cons. destruct (render_token x Hx) as [-> Htok].
    by constructor.
  - by eapply arrangement_unordered.
Qed.

Lemma C6_witness :
  ∃ o, build_if_possible (fresh_world example_tiles) [0; 1; 2] = Some o ∧
    ∀ chain, out_chain o = Some chain →
      ∃ strs v,
        to_list (tile_store (out_world o)) (node_store (out_world o)) chain
        = Some strs ∧
        strs = DominoTile_str <$> v ∧
        (∀ h, ∃ h' rs,
           parse_parts h [] (strip <$> strs) = Some (Accepted h' rs) ∧
           points_to h' rs v) ∧
        unordered <$> v ≡ₚ unordered <$> example_tiles.
Proof.
  apply (C6_render_and_reparse (fresh_world example_tiles) [0; 1; 2]
           example_tiles).
  - repeat constructor.
  - repeat constructor; simpl; lia.
Defined.

(** C7, as stated, fails: the entry that is empty once stripped has the one
    token [EmptyString], which is not two digit characters, yet the message
    printed is neither the format message nor the range message: the guard
    [if not input_str] answers it with the no-tiles message. *)
Lemma C7_counterexample :
  tokens (strip EmptyString) = [EmptyString] ∧
  ¬ two_digit_token EmptyString ∧
  printed (events (add_attempt (Session [] [] (World [] []) AtAdd)
                     EmptyString))
  = empty_error :: printed add_events ∧
  (format_error ∉ printed add_events) ∧
  (range_error ∉ printed add_events) ∧
  empty_error ≠ format_error ∧
  empty_error ≠ range_error.
Proof.
  split_and!; try done.
  - by intros (ch0 & ch1 & ? & _).
  - by intros ?%list_elem_of_singleton.
  - by intros ?%list_elem_of_singleton.
Qed.

(** C7, amended: what one entry at the add option does.  An entry that is
    empty once stripped is answered by the no-tiles message.  Otherwise, when
    some token is malformed, one message is printed: the format message when
    the first malformed token is not exactly two digit characters, the range
    message when it is two decimal digits with one above 6.  In all these
    cases the entry is asked for again, the solver is not called and the
    history is unchanged.  When every token is well formed, the stripped
    entry is appended to the history and the solver is called once on the
    tiles the tokens denote, and its answer is printed, also when that answer
    is that the tiles cannot be arranged.  Nothing is said of an entry whose
    first malformed token is two digit characters that are not both decimal
    digits. *)
Theorem C7_entry_validation st line :
  let input_str := strip line in
  let st' := add_attempt st line in
  (∀ pre bad rest,
     tokens input_str = pre ++ bad :: rest →
     Forall well_formed pre → ¬ well_formed bad → ¬ unreadable bad →
     ∃ message,
       events st' = events st ++ Print message :: add_events ∧
       (input_str = EmptyString → message = empty_error) ∧
       (input_str ≠ EmptyString → ¬ two_digit_token bad →
        message = format_error) ∧
       (input_str ≠ EmptyString → two_digit_token bad →
        message = range_error) ∧
       solver_calls (events st') = solver_calls (events st) ∧
       all_inputs st' = all_inputs st ∧
       at_mode st' = AtAdd) ∧
  (∀ vs,
     Forall2 token_tile (tokens input_str) vs →
     all_inputs st' = all_inputs st ++ [input_str] ∧
     solver_calls (events st') = solver_calls (events st) ++ [vs] ∧
     at_mode st' = AtMenu ∧
     ((¬ chainable vs ∧
       events st' = events st ++ Solve vs :: Print "Нельзя." :: menu_events) ∨
      (∃ v, chainable vs ∧ first_valid vs = Some v ∧
            events st'
            = events st
              ++ Solve vs
                 :: Print ("Можно:" ++ " "
                           ++ String.concat ", " (DominoTile_str <$> v))%string
                 :: menu_events))).
Proof.
  intros input_str st'. split.
  - intros pre bad rest Htok Hpre Hbad Hread.
    subst st'. unfold add_attempt. fold input_str.
    destruct (String.eqb input_str EmptyString) eqn:Heq.
    + apply String.eqb_eq in Heq.
      exists empty_error. simpl. rewrite solver_calls_app. simpl.
      rewrite app_nil_r. split_and!; try done.
    + apply String.eqb_neq in Heq.
      fold (tokens input_str). rewrite Htok.
      destruct (parse_parts_bad pre (tile_store (objects st)) [] bad rest
                  Hpre Hbad Hread) as (message & -> & Hrange & Hformat).
      exists message. simpl. rewrite solver_calls_app. simpl.
      rewrite app_nil_r. split_and!; try done; auto.
  - intros vs Hvs.
    assert (Hne : String.eqb input_str EmptyString = false).
    { apply String.eqb_neq. intros Heq. rewrite Heq, tokens_empty in Hvs.
      inversion Hvs as [|? x ? ? Hx _]; subst.
      apply not_well_formed_empty. by exists x. }
    subst st'. unfold add_attempt. fold input_str. rewrite Hne.
    fold (tokens input_str).
    rewrite (parse_parts_good _ _ _ _ Hvs). simpl app.
    set (h := tile_store (objects st)).
    pose proof (points_to_seq h vs) as Hpt.
    assert (Hcalled : mapM (λ r, (h ++ vs) !! r) (seq (length h) (length vs))
                      = Some vs) by by apply mapM_Some.
    rewrite Hcalled. simpl default.
    destruct (build_if_possible_spec
                (World (h ++ vs) (node_store (objects st))) _ _ Hpt)
      as (o & -> & Hs).
    apply solved_chain in Hs.
    destruct (first_valid vs) as [v|] eqn:Hv.
    + destruct Hs as (chain & rs & -> & _ & _ & _ & ->). simpl.
      rewrite solver_calls_app. simpl. split_and!; try done.
      right. exists v. split_and!; try done.
      apply first_valid_chainable. by rewrite Hv.
    + rewrite Hs. simpl. rewrite solver_calls_app. simpl.
      split_and!; try done. left. split; [|done].
      by apply first_valid_None.
Qed.

(** C8, as stated, fails: on the tiles 33, 02, 10, 30, 21 the solver returns
    33, 30, 01, 12, 20, while the first valid candidate with permutations
    taken in lexicographic order of the original indices is
    33, 30, 02, 21, 10. *)
Lemma C8_counterexample :
  (∃ o chain,
     build_if_possible (fresh_world five_tiles) [0; 1; 2; 3; 4] = Some o ∧
     out_chain o = Some chain ∧
     chain_values (out_world o) chain
     = Some [tile 3 3; tile 3 0; tile 0 1; tile 1 2; tile 2 0]) ∧
  find validb (lex_candidates five_tiles)
  = Some [tile 3 3; tile 3 0; tile 0 2; tile 2 1; tile 1 0] ∧
  [tile 3 3; tile 3 0; tile 0 1; tile 1 2; tile 2 0]
  ≠ [tile 3 3; tile 3 0; tile 0 2; tile 2 1; tile 1 0].
Proof.
  split_and!; [|by vm_compute|done].
  assert (Hpt : points_to (tile_store (fresh_world five_tiles))
                  [0; 1; 2; 3; 4] five_tiles) by repeat constructor.
  destruct (build_if_possible_spec _ _ _ Hpt) as (o & Ho & Hs).
  apply solved_chain in Hs.
  assert (Hv : first_valid five_tiles
               = Some [tile 3 3; tile 3 0; tile 0 1; tile 1 2; tile 2 0])
    by by vm_compute.
  rewrite Hv in Hs. destruct Hs as (chain & rs & Hc & _ & _ & Hvals & _).
  exists o, chain. exact (conj Ho (conj Hc Hvals)).
Qed.

(** C8, amended: when the solver succeeds, the returned chain is the first
    candidate passing validity in this order: permutations in the order of
    the swap-based generator (the head position receives the elements at
    index 0, 1, ... in turn, each by exchange with the head, and the
    remaining positions are arranged the same way), and within each
    permutation the orientations with each position unflipped before flipped,
    earlier positions more significant; when no candidate passes, the solver
    returns [None]. *)
Theorem C8_first_valid_in_swap_order w tiles vs :
  points_to (tile_store w) tiles vs →
  ∃ o, build_if_possible w tiles = Some o ∧
    match find validb (code_candidates vs) with
    | None => out_chain o = None
    | Some v => ∃ chain, out_chain o = Some chain ∧
                         chain_values (out_world o) chain = Some v
    end.
Proof.
  intros Hpt. destruct (build_if_possible_spec _ _ _ Hpt) as (o & Ho & Hs).
  exists o. split; [done|]. apply solved_chain in Hs.
  unfold first_valid in Hs. rewrite candidates_code_candidates in Hs.
  destruct (find validb (code_candidates vs)) as [v|]; [|done].
  destruct Hs as (chain & rs & ? & _ & _ & ? & _). by exists chain.
Qed.

Lemma C8_witness :
  ∃ o, build_if_possible (fresh_world five_tiles) [0; 1; 2; 3; 4] = Some o ∧
    match find validb (code_candidates five_tiles) with
    | None => out_chain o = None
    | Some v => ∃ chain, out_chain o = Some chain ∧
                         chain_values (out_world o) chain = Some v
    end.
Proof.
  apply (C8_first_valid_in_swap_order (fresh_world five_tiles)
           [0; 1; 2; 3; 4] five_tiles).
  repeat constructor.
Defined.

(** C9: the static method [DominoLinkedChain.build_if_possible] and the free
    function [build_valid_chain] agree on every list of tiles: both return
    [None], or both return chains with equal [to_list] renderings. *)
Theorem C9_two_solvers_agree w tiles vs :
  points_to (tile_store w) tiles vs →
  ∃ o1 o2,
    build_if_possible w tiles = Some o1 ∧
    build_valid_chain w tiles = Some o2 ∧
    ((out_chain o1 = None ∧ out_chain o2 = None) ∨
     ∃ c1 c2 l,
       out_chain o1 = Some c1 ∧ out_chain o2 = Some c2 ∧
       to_list (tile_store (out_world o1)) (node_store (out_world o1)) c1
       = Some l ∧
       to_list (tile_store (out_world o2)) (node_store (out_world o2)) c2
       = Some l).
Proof.
  intros Hpt.
  destruct (build_if_possible_spec _ _ _ Hpt) as (o1 & Ho1 & Hs1).
  destruct (build_valid_chain_spec _ _ _ Hpt) as (o2 & Ho2 & Hs2).
  exists o1, o2. split_and!; [done..|].
  apply solved_chain in Hs1, Hs2.
  destruct (first_valid vs) as [v|]; [right|by left].
  destruct Hs1 as (c1 & ? & ? & _ & _ & _ & ?).
  destruct Hs2 as (c2 & ? & ? & _ & _ & _ & ?).
  by exists c1, c2, (DominoTile_str <$> v).
Qed.

Lemma C9_witness :
  ∃ o1 o2,
    build_if_possible (fresh_world example_tiles) [0; 1; 2] = Some o1 ∧
    build_valid_chain (fresh_world example_tiles) [0; 1; 2] = Some o2 ∧
    ((out_chain o1 = None ∧ out_chain o2 = None) ∨
     ∃ c1 c2 l,
       out_chain o1 = Some c1 ∧ out_chain o2 = Some c2 ∧
       to_list (tile_store (out_world o1)) (node_store (out_world o1)) c1
       = Some l ∧
       to_list (tile_store (out_world o2)) (node_store (out_world o2)) c2
       = Some l).
Proof.
  apply (C9_two_solvers_agree (fresh_world example_tiles) [0; 1; 2]
           example_tiles).
  repeat constructor.
Defined.

(** C10: on a fresh chain, appending the tiles [t1 .. tn] (n at least 1)
    gives a list whose first node has no predecessor and whose last node has
    no successor; following [next_node] from [node_first] visits n distinct
    nodes holding [t1 .. tn] in that order, so [to_list] is
    [str t1 .. str tn]; following [prev_node] from [node_last] visits the same
    nodes in reverse order. *)
Theorem C10_doubly_linked_invariant th nh0 ts vs :
  ts ≠ [] → points_to th ts vs →
  ∃ nh chain first last nf nl nodes,
    make_chain nh0 ts = Some (nh, chain) ∧
    node_first chain = Some first ∧ nh !! first = Some nf ∧
    prev_node nf = None ∧
    node_last chain = Some last ∧ nh !! last = Some nl ∧
    next_node nl = None ∧
    forward_nodes nh chain = Some nodes ∧
    length nodes = length ts ∧ NoDup nodes ∧
    tiles_of_nodes nh nodes = Some ts ∧
    to_list th nh chain = Some (DominoTile_str <$> vs) ∧
    backward_nodes nh chain = Some (rev nodes).
Proof.
  intros Hne Hpt. rewrite make_chain_spec.
  assert (Hpos : 0 < length ts) by (destruct ts; [done|simpl; lia]).
  destruct (lookup_lt_is_Some_2 ts 0 Hpos) as [t0 Ht0].
  destruct (lookup_lt_is_Some_2 ts (length ts - 1) ltac:(lia)) as [tm Htm].
  pose proof (linked_lookup nh0 ts _ _ Ht0) as H0.
  pose proof (linked_lookup nh0 ts _ _ Htm) as Hm.
  rewrite Nat.add_0_r in H0.
  assert (Hover : chain_over (length nh0) (length ts)
                  = {| DominoLinkedChain.node_first := Some (length nh0);
                       DominoLinkedChain.node_last :=
                         Some (length nh0 + (length ts - 1)) |}).
  { destruct (length ts) as [|m]; [lia|]. simpl.
    by rewrite Nat.sub_0_r. }
  eexists _, _, _, _, _, _, (seq (length nh0) (length ts)).
  split_and!; [done|by rewrite Hover|exact H0|done|by rewrite Hover|exact Hm|
               |apply forward_nodes_linked|apply length_seq|apply NoDup_seq|
               apply tiles_of_nodes_linked|by apply to_list_linked|
               apply backward_nodes_linked].
  simpl. by rewrite decide_False by lia.
Qed.

Lemma C10_witness :
  ∃ nh chain first last nf nl nodes,
    make_chain [] [0; 1; 2] = Some (nh, chain) ∧
    node_first chain = Some first ∧ nh !! first = Some nf ∧
    prev_node nf = None ∧
    node_last chain = Some last ∧ nh !! last = Some nl ∧
    next_node nl = None ∧
    forward_nodes nh chain = Some nodes ∧
    length nodes = length [0; 1; 2] ∧ NoDup nodes ∧
    tiles_of_nodes nh nodes = Some [0; 1; 2] ∧
    to_list example_tiles nh chain = Some (DominoTile_str <$> example_tiles) ∧
    backward_nodes nh chain = Some (rev nodes).
Proof.
  apply (C10_doubly_linked_invariant example_tiles [] [0; 1; 2] example_tiles).
  - done.
  - repeat constructor.
Defined.

(** * Part V: further properties of the code *)

(** ** The generators *)

Lemma bind_length_const {A B} (f : A → list B) (idx : list A) c :
  Forall (λ x, length (f x) = c) idx → length (idx ≫= f) = length idx * c.
Proof.
  induction 1 as [|x idx Hx _ IH]; [done|].
  rewrite bind_cons, length_app, Hx, IH. simpl. lia.
Qed.

Lemma swap_order_length {A} n : ∀ l : list A,
  length l = n → length (swap_order n l) = fact n.
Proof.
  induction n as [|n IH]; intros l Hl; [done|].
  cbn [swap_order fact].
  rewrite (bind_length_const _ _ (fact n)).
  - rewrite length_seq. lia.
  - apply Forall_forall. intros j Hj%elem_of_seq.
    destruct (lookup_lt_is_Some_2 l j ltac:(lia)) as [y Hy].
    destruct (swapped_head _ _ _ Hy) as (r & -> & Hperm).
    rewrite length_fmap. apply IH.
    apply Permutation_length in Hperm. simpl in Hperm. lia.
Qed.

Lemma flip_order_length l : length (flip_order l) = 2 ^ length l.
Proof.
  induction l as [|x l IH]; [done|].
  cbn [flip_order]. rewrite length_app, !length_fmap, IH.
  cbn [length Nat.pow]. lia.
Qed.

Lemma Forall2_elem_of_l {A B} (P : A → B → Prop) l k x :
  Forall2 P l k → x ∈ l → ∃ y, y ∈ k ∧ P x y.
Proof.
  intros HF [i Hi]%list_elem_of_lookup.
  destruct (Forall2_lookup_l _ _ _ _ _ HF Hi) as (y & Hy & HP).
  exists y. split; [|done]. apply list_elem_of_lookup. eauto.
Qed.

Lemma Forall2_elem_of_r {A B} (P : A → B → Prop) l k y :
  Forall2 P l k → y ∈ k → ∃ x, x ∈ l ∧ P x y.
Proof.
  intros HF [i Hi]%list_elem_of_lookup.
  destruct (Forall2_lookup_r _ _ _ _ _ HF Hi) as (x & Hx & HP).
  exists x. split; [|done]. apply list_elem_of_lookup. eauto.
Qed.

(** X1: [generate_permutations] returns n! lists of fresh tile objects, each
    denoting a permutation of the input, with every permutation of the input
    among them; the tile store only grows and the list it was given is back
    in its original order. *)
Theorem X1_generate_permutations_all h tiles vs :
  points_to h tiles vs →
  ∃ extra result,
    generate_permutations h tiles
    = Some (PermuteState (h ++ extra) tiles result) ∧
    length result = fact (length tiles) ∧
    (∀ rs, rs ∈ result →
       NoDup rs ∧ Forall (λ r, length h ≤ r) rs ∧
       ∃ p, points_to (h ++ extra) rs p ∧ p ≡ₚ vs) ∧
    (∀ p, p ≡ₚ vs → ∃ rs, rs ∈ result ∧ points_to (h ++ extra) rs p).
Proof.
  intros Hpt. rewrite (generate_permutations_spec _ _ _ Hpt).
  set (P := swap_perms vs).
  pose proof (points_to_fresh_blocks h P) as HF.
  exists (concat P), (fresh_blocks (length h) P). split_and!; [done| | |].
  - rewrite fresh_blocks_length. unfold P.
    rewrite swap_perms_swap_order, (points_to_length _ _ _ Hpt).
    by apply swap_order_length.
  - intros rs Hrs. destruct (fresh_blocks_elem _ _ _ Hrs) as [Hfresh Hnd].
    split_and!; [done..|].
    destruct (Forall2_elem_of_l _ _ _ _ HF Hrs) as (p & Hp & Hrsp).
    exists p. split; [done|]. by apply swap_perms_elem.
  - intros p Hp%swap_perms_elem.
    destruct (Forall2_elem_of_r _ _ _ _ HF Hp) as (rs & ? & ?). eauto.
Qed.

Lemma X1_witness :
  ∃ extra result,
    generate_permutations example_tiles [0; 1; 2]
    = Some (PermuteState (example_tiles ++ extra) [0; 1; 2] result) ∧
    length result = fact (length [0; 1; 2]) ∧
    (∀ rs, rs ∈ result →
       NoDup rs ∧ Forall (λ r, length example_tiles ≤ r) rs ∧
       ∃ p, points_to (example_tiles ++ extra) rs p ∧ p ≡ₚ example_tiles) ∧
    (∀ p, p ≡ₚ example_tiles →
       ∃ rs, rs ∈ result ∧ points_to (example_tiles ++ extra) rs p).
Proof.
  apply (X1_generate_permutations_all example_tiles [0; 1; 2] example_tiles).
  repeat constructor.
Defined.

Lemma live_points_to (h : tile_heap) rs :
  Forall (λ r, r < length h) rs → ∃ vs, points_to h rs vs.
Proof.
  induction 1 as [|r rs Hr _ (vs & IH)]; [exists []; constructor|].
  destruct (lookup_lt_is_Some_2 h r Hr) as [v Hv].
  exists (v :: vs). by constructor.
Qed.

(** [flip(index)] on any list of live tile objects, the same object listed
    twice included: every object is back as it was, and [2 ^ k] lists are
    added to [result]. *)
Lemma flip_restores rs k : ∀ fuel index h res,
  Forall (λ r, r < length h) rs → index + k = length rs → k < fuel →
  ∃ extra new,
    flip fuel rs index (h, res) = Some (h ++ extra, res ++ new) ∧
    length new = 2 ^ k.
Proof.
  induction k as [|k IH]; intros fuel index h res Hlive Hlen Hfuel;
    (destruct fuel as [|fuel]; [lia|]); cbn [flip].
  - rewrite decide_True by lia.
    destruct (live_points_to _ _ Hlive) as (vs & Hpt).
    cbn [fst snd]. rewrite (clone_each_spec _ _ _ Hpt). simpl.
    by exists vs, [seq (length h) (length vs)].
  - rewrite decide_False by lia.
    destruct (IH fuel (S index) h res Hlive) as (e1 & n1 & -> & Hn1);
      [lia..|].
    simpl.
    destruct (lookup_lt_is_Some_2 rs index ltac:(lia)) as [r Hr].
    rewrite Hr. simpl.
    pose proof (proj1 (Forall_forall _ _) Hlive r
                  (list_elem_of_lookup_2 _ _ _ Hr)) as Hrlive.
    simpl in Hrlive.
    destruct (lookup_lt_is_Some_2 h r Hrlive) as [v Hv].
    rewrite (tile_flip_spec (h ++ e1) r v) by by apply lookup_app_l_Some.
    simpl.
    set (h2 := <[r := flipped v]> (h ++ e1)).
    assert (Hlen2 : length h2 = length h + length e1).
    { unfold h2. by rewrite length_insert, length_app. }
    destruct (IH fuel (S index) h2 (res ++ n1)) as (e2 & n2 & -> & Hn2);
      [|lia..|].
    { eapply Forall_impl; [exact Hlive|]. simpl. intros. lia. }
    simpl.
    assert (Hr2 : (h2 ++ e2) !! r = Some (flipped v)).
    { apply lookup_app_l_Some. unfold h2.
      apply list_lookup_insert_eq. rewrite length_app. lia. }
    rewrite (tile_flip_spec _ _ _ Hr2). simpl. rewrite flipped_involutive.
    exists (e1 ++ e2), (n1 ++ n2). split.
    + f_equal. f_equal.
      * rewrite insert_app_l by lia. unfold h2.
        rewrite list_insert_insert_eq.
        rewrite (list_insert_id (h ++ e1)) by by apply lookup_app_l_Some.
        by rewrite app_assoc.
      * by rewrite app_assoc.
    + rewrite length_app, Hn1, Hn2. cbn [Nat.pow]. lia.
Qed.

(** X2: [generate_flips] leaves every tile object as it found it, whatever
    live objects the list holds (also when one object is listed twice), and
    returns [2 ^ n] lists for a list of n tiles. *)
Theorem X2_generate_flips_restores_tiles h tiles :
  Forall (λ r, r < length h) tiles →
  ∃ extra result,
    generate_flips h tiles = Some (h ++ extra, result) ∧
    length result = 2 ^ length tiles.
Proof.
  intros Hlive. unfold generate_flips.
  destruct (flip_restores tiles (length tiles) (S (length tiles)) 0 h []
              Hlive) as (extra & new & -> & Hnew); [lia..|].
  by exists extra, new.
Qed.

Lemma X2_witness :
  ∃ extra result,
    generate_flips example_tiles [0; 0; 2] = Some (example_tiles ++ extra, result) ∧
    length result = 2 ^ length [0; 0; 2].
Proof.
  apply (X2_generate_flips_restores_tiles example_tiles [0; 0; 2]).
  repeat constructor.
Defined.

(** X3: on a list of distinct tile objects, [generate_flips] returns lists
    of fresh objects that denote the orientations of the list in the order
    of [flip_order]: each position as given before turned, earlier positions
    more significant; every choice of orientations is among them. *)
Theorem X3_generate_flips_all_orientations h tiles vs :
  NoDup tiles → points_to h tiles vs →
  ∃ extra result,
    generate_flips h tiles = Some (h ++ extra, result) ∧
    Forall2 (points_to (h ++ extra)) result (flip_order vs) ∧
    (∀ rs, rs ∈ result → NoDup rs ∧ Forall (λ r, length h ≤ r) rs) ∧
    (∀ f, Forall2 oriented vs f →
          ∃ rs, rs ∈ result ∧ points_to (h ++ extra) rs f).
Proof.
  intros Hnd Hpt. rewrite (generate_flips_spec _ _ _ Hnd Hpt).
  rewrite all_flips_flip_order.
  pose proof (points_to_fresh_blocks h (flip_order vs)) as HF.
  eexists _, _. split_and!; [done|exact HF| |].
  - intros rs Hrs. by destruct (fresh_blocks_elem _ _ _ Hrs).
  - intros f Hf%flip_order_elem.
    destruct (Forall2_elem_of_r _ _ _ _ HF Hf) as (rs & ? & ?). eauto.
Qed.

Lemma X3_witness :
  ∃ extra result,
    generate_flips example_tiles [0; 1; 2] = Some (example_tiles ++ extra, result) ∧
    Forall2 (points_to (example_tiles ++ extra)) result
      (flip_order example_tiles) ∧
    (∀ rs, rs ∈ result →
           NoDup rs ∧ Forall (λ r, length example_tiles ≤ r) rs) ∧
    (∀ f, Forall2 oriented example_tiles f →
          ∃ rs, rs ∈ result ∧ points_to (example_tiles ++ extra) rs f).
Proof.
  apply (X3_generate_flips_all_orientations example_tiles [0; 1; 2]
           example_tiles).
  - exact (NoDup_seq 0 3).
  - repeat constructor.
Defined.

(** ** Validity, flipping and cloning *)

(** X4: on a list of live tile objects [is_valid_chain] and
    [check_chain_valid] return without raising; the answer is [True] exactly
    when every adjacent pair matches right value to left value (so always
    for no tile or one tile), and [False] otherwise. *)
Theorem X4_is_valid_chain_decides_adjacency h tiles vs :
  points_to h tiles vs →
  (is_valid_chain h tiles = Some true ↔ adjacent vs) ∧
  (is_valid_chain h tiles = Some false ↔ ¬ adjacent vs) ∧
  check_chain_valid h tiles = is_valid_chain h tiles ∧
  (length tiles ≤ 1 → is_valid_chain h tiles = Some true).
Proof.
  intros Hpt. rewrite (check_chain_valid_spec _ _ _ Hpt).
  rewrite (is_valid_chain_spec _ _ _ Hpt).
  rewrite <- validb_adjacent. split_and!; [|  |done|].
  - split; congruence.
  - destruct (validb vs); split; congruence.
  - intros Hlen. rewrite (points_to_length _ _ _ Hpt) in Hlen.
    by destruct vs as [|x [|y vs]]; [..|simpl in Hlen; lia].
Qed.

Lemma X4_witness :
  (is_valid_chain example_tiles [0; 1; 2] = Some true
   ↔ adjacent example_tiles) ∧
  (is_valid_chain example_tiles [0; 1; 2] = Some false
   ↔ ¬ adjacent example_tiles) ∧
  check_chain_valid example_tiles [0; 1; 2]
  = is_valid_chain example_tiles [0; 1; 2] ∧
  (length [0; 1; 2] ≤ 1 → is_valid_chain example_tiles [0; 1; 2] = Some true).
Proof.
  apply (X4_is_valid_chain_decides_adjacency example_tiles [0; 1; 2]
           example_tiles).
  repeat constructor.
Defined.

(** X5: [DominoTile.flip] exchanges the two values of its tile and touches
    no other tile object; flipping the same tile twice gives back the store
    as it was. *)
Theorem X5_flip_twice_restores (h : tile_heap) r x :
  h !! r = Some x →
  ∃ h1,
    DominoTile.flip h r = Some h1 ∧
    h1 !! r = Some {| DominoTile.value_left := value_right x;
                     DominoTile.value_right := value_left x |} ∧
    (∀ r', r' ≠ r → h1 !! r' = h !! r') ∧
    DominoTile.flip h1 r = Some h.
Proof.
  intros Hr. pose proof (lookup_lt_Some _ _ _ Hr) as Hlt.
  exists (<[r := flipped x]> h). split_and!.
  - by apply tile_flip_spec.
  - by rewrite list_lookup_insert_eq.
  - intros r' Hne. by rewrite list_lookup_insert_ne.
  - rewrite (tile_flip_spec _ r (flipped x))
      by by rewrite list_lookup_insert_eq.
    by rewrite flipped_involutive, list_insert_insert_eq, list_insert_id.
Qed.

Lemma X5_witness :
  ∃ h1,
    DominoTile.flip example_tiles 1 = Some h1 ∧
    h1 !! 1 = Some {| DominoTile.value_left := value_right (tile 0 4);
                     DominoTile.value_right := value_left (tile 0 4) |} ∧
    (∀ r', r' ≠ 1 → h1 !! r' = example_tiles !! r') ∧
    DominoTile.flip h1 1 = Some example_tiles.
Proof.
  apply (X5_flip_twice_restores example_tiles 1 (tile 0 4)). reflexivity.
Defined.

(** X6: [DominoTile.clone] creates a new object with the values of the
    original and changes no existing object; flipping the clone afterwards
    leaves the original as it was. *)
Theorem X6_clone_is_independent (h : tile_heap) r x :
  h !! r = Some x →
  ∃ h1 c,
    DominoTile.clone h r = Some (h1, c) ∧
    c ≠ r ∧ h !! c = None ∧
    h1 !! c = Some x ∧
    (∀ r' y, h !! r' = Some y → h1 !! r' = Some y) ∧
    ∃ h2, DominoTile.flip h1 c = Some h2 ∧
          h2 !! r = Some x ∧ h2 !! c = Some (flipped x).
Proof.
  intros Hr. pose proof (lookup_lt_Some _ _ _ Hr) as Hlt.
  exists (h ++ [x]), (length h).
  assert (Hc : (h ++ [x]) !! length h = Some x).
  { rewrite lookup_app_r by lia. by rewrite Nat.sub_diag. }
  split_and!.
  - unfold DominoTile.clone. rewrite Hr. simpl. by destruct x.
  - lia.
  - by apply lookup_ge_None_2.
  - done.
  - intros r' y Hy. by apply lookup_app_l_Some.
  - exists (<[length h := flipped x]> (h ++ [x])). split_and!.
    + by apply tile_flip_spec.
    + rewrite list_lookup_insert_ne by lia. by apply lookup_app_l_Some.
    + rewrite list_lookup_insert_eq; [done|]. rewrite length_app. simpl. lia.
Qed.

Lemma X6_witness :
  ∃ h1 c,
    DominoTile.clone example_tiles 1 = Some (h1, c) ∧
    c ≠ 1 ∧ example_tiles !! c = None ∧
    h1 !! c = Some (tile 0 4) ∧
    (∀ r' y, example_tiles !! r' = Some y → h1 !! r' = Some y) ∧
    ∃ h2, DominoTile.flip h1 c = Some h2 ∧
          h2 !! 1 = Some (tile 0 4) ∧ h2 !! c = Some (flipped (tile 0 4)).
Proof.
  apply (X6_clone_is_independent example_tiles 1 (tile 0 4)). reflexivity.
Defined.

(** ** The solver *)

Lemma perms_from_head {A} k : ∀ start (l : list A),
  ∃ t, perms_from k start l = l :: t.
Proof.
  induction k as [|k IH]; intros start l; [by exists []|].
  cbn [perms_from seq]. rewrite bind_cons, swapped_diag.
  destruct (IH (S start) l) as (t & ->). eauto.
Qed.

Lemma flips_from_head k : ∀ index l, ∃ t, flips_from k index l = l :: t.
Proof.
  induction k as [|k IH]; intros index l; [by exists []|].
  cbn [flips_from]. destruct (IH (S index) l) as (t & ->). eauto.
Qed.

Lemma candidates_head vs : ∃ t, candidates vs = vs :: t.
Proof.
  unfold candidates, swap_perms, all_flips.
  destruct (perms_from_head (length vs) 0 vs) as (t & ->).
  rewrite bind_cons.
  destruct (flips_from_head (length vs) 0 vs) as (t' & ->). eauto.
Qed.

Lemma first_valid_of_chain vs : adjacent vs → first_valid vs = Some vs.
Proof.
  intros Hadj%validb_adjacent. unfold first_valid.
  destruct (candidates_head vs) as (t & ->). simpl. by rewrite Hadj.
Qed.

(** X7: the answer of the solver depends only on the values of the tiles in
    the order listed, not on which objects hold them or on what else the
    stores contain: two calls on lists denoting the same values both return
    [None], or return chains of the same tile values. *)
Theorem X7_answer_depends_on_values_only w1 tiles1 w2 tiles2 vs :
  points_to (tile_store w1) tiles1 vs →
  points_to (tile_store w2) tiles2 vs →
  ∃ o1 o2,
    build_if_possible w1 tiles1 = Some o1 ∧
    build_if_possible w2 tiles2 = Some o2 ∧
    ((out_chain o1 = None ∧ out_chain o2 = None) ∨
     ∃ c1 c2 v,
       out_chain o1 = Some c1 ∧ out_chain o2 = Some c2 ∧
       chain_values (out_world o1) c1 = Some v ∧
       chain_values (out_world o2) c2 = Some v).
Proof.
  intros Hpt1 Hpt2.
  destruct (build_if_possible_spec _ _ _ Hpt1) as (o1 & Ho1 & Hs1).
  destruct (build_if_possible_spec _ _ _ Hpt2) as (o2 & Ho2 & Hs2).
  exists o1, o2. split_and!; [done..|].
  apply solved_chain in Hs1, Hs2.
  destruct (first_valid vs) as [v|]; [right|by left].
  destruct Hs1 as (c1 & ? & ? & _ & _ & ? & _).
  destruct Hs2 as (c2 & ? & ? & _ & _ & ? & _).
  by exists c1, c2, v.
Qed.

Lemma X7_witness :
  ∃ o1 o2,
    build_if_possible (fresh_world example_tiles) [0; 1; 2] = Some o1 ∧
    build_if_possible (fresh_world (tile 6 6 :: example_tiles)) [1; 2; 3]
    = Some o2 ∧
    ((out_chain o1 = None ∧ out_chain o2 = None) ∨
     ∃ c1 c2 v,
       out_chain o1 = Some c1 ∧ out_chain o2 = Some c2 ∧
       chain_values (out_world o1) c1 = Some v ∧
       chain_values (out_world o2) c2 = Some v).
Proof.
  apply (X7_answer_depends_on_values_only (fresh_world example_tiles)
           [0; 1; 2] (fresh_world (tile 6 6 :: example_tiles)) [1; 2; 3]
           example_tiles).
  - repeat constructor.
  - repeat constructor.
Defined.

(** X8: calling the solver a second time on the same list, in the stores the
    first call left, gives the same answer: the search leaves nothing behind
    that a later search can see. *)
Theorem X8_second_call_answers_alike w tiles vs :
  points_to (tile_store w) tiles vs →
  ∃ o1 o2,
    build_if_possible w tiles = Some o1 ∧
    build_if_possible (out_world o1) (out_tiles o1) = Some o2 ∧
    out_tiles o2 = tiles ∧
    ((out_chain o1 = None ∧ out_chain o2 = None) ∨
     ∃ c1 c2 v,
       out_chain o1 = Some c1 ∧ out_chain o2 = Some c2 ∧
       chain_values (out_world o1) c1 = Some v ∧
       chain_values (out_world o2) c2 = Some v).
Proof.
  intros Hpt.
  destruct (build_if_possible_spec _ _ _ Hpt) as (o1 & Ho1 & Hs1).
  assert (Hpt1 : points_to (tile_store (out_world o1)) (out_tiles o1) vs).
  { destruct Hs1 as (extra & -> & -> & _). by apply points_to_app_heap. }
  destruct (build_if_possible_spec _ _ _ Hpt1) as (o2 & Ho2 & Hs2).
  exists o1, o2. split_and!; [done..| |].
  - destruct Hs1 as (? & _ & <- & _). by destruct Hs2 as (? & _ & -> & _).
  - apply solved_chain in Hs1, Hs2.
    destruct (first_valid vs) as [v|]; [right|by left].
    destruct Hs1 as (c1 & ? & ? & _ & _ & ? & _).
    destruct Hs2 as (c2 & ? & ? & _ & _ & ? & _).
    by exists c1, c2, v.
Qed.

Lemma X8_witness :
  ∃ o1 o2,
    build_if_possible (fresh_world example_tiles) [0; 1; 2] = Some o1 ∧
    build_if_possible (out_world o1) (out_tiles o1) = Some o2 ∧
    out_tiles o2 = [0; 1; 2] ∧
    ((out_chain o1 = None ∧ out_chain o2 = None) ∨
     ∃ c1 c2 v,
       out_chain o1 = Some c1 ∧ out_chain o2 = Some c2 ∧
       chain_values (out_world o1) c1 = Some v ∧
       chain_values (out_world o2) c2 = Some v).
Proof.
  apply (X8_second_call_answers_alike (fresh_world example_tiles) [0; 1; 2]
           example_tiles).
  repeat constructor.
Defined.

(** X9: when the tiles as listed already form a chain, the solver returns
    that very sequence, no tile moved or turned: the first candidate tried is
    the list as given. *)
Theorem X9_chain_is_returned_as_given w tiles vs :
  points_to (tile_store w) tiles vs → adjacent vs →
  ∃ o chain,
    build_if_possible w tiles = Some o ∧
    out_chain o = Some chain ∧
    chain_values (out_world o) chain = Some vs ∧
    to_list (tile_store (out_world o)) (node_store (out_world o)) chain
    = Some (DominoTile_str <$> vs).
Proof.
  intros Hpt Hadj.
  destruct (build_if_possible_spec _ _ _ Hpt) as (o & Ho & Hs).
  apply solved_chain in Hs. rewrite (first_valid_of_chain _ Hadj) in Hs.
  destruct Hs as (chain & rs & ? & _ & _ & ? & ?). by exists o, chain.
Qed.

Lemma X9_witness :
  ∃ o chain,
    build_if_possible (fresh_world [tile 2 0; tile 0 4; tile 4 2]) [0; 1; 2]
    = Some o ∧
    out_chain o = Some chain ∧
    chain_values (out_world o) chain = Some [tile 2 0; tile 0 4; tile 4 2] ∧
    to_list (tile_store (out_world o)) (node_store (out_world o)) chain
    = Some (DominoTile_str <$> [tile 2 0; tile 0 4; tile 4 2]).
Proof.
  apply (X9_chain_is_returned_as_given
           (fresh_world [tile 2 0; tile 0 4; tile 4 2]) [0; 1; 2]
           [tile 2 0; tile 0 4; tile 4 2]).
  - repeat constructor.
  - apply validb_adjacent. reflexivity.
Defined.

(** X10: the solver never touches a chain node that existed before the call;
    a failed search creates no node at all, and a successful one creates
    exactly one node per tile. *)
Theorem X10_solver_node_store_frame w tiles vs :
  points_to (tile_store w) tiles vs →
  ∃ o new,
    build_if_possible w tiles = Some o ∧
    node_store (out_world o) = node_store w ++ new ∧
    (out_chain o = None → new = []) ∧
    (is_Some (out_chain o) → length new = length tiles).
Proof.
  intros Hpt. destruct (build_if_possible_spec _ _ _ Hpt) as (o & Ho & Hs).
  destruct Hs as (extra & _ & _ & Hs).
  destruct (first_valid vs) as [v|] eqn:Hv.
  - destruct Hs as (rs & _ & Hrs & Hnh & Hc).
    exists o, (linked_nodes (length (node_store w)) rs).
    split_and!; [done|done|congruence|]. intros _.
    rewrite linked_nodes_length, (points_to_length _ _ _ Hrs).
    apply first_valid_Some in Hv as (p & Hp & Hpv & _).
    rewrite <- (Forall2_length _ _ _ Hpv), (Permutation_length Hp).
    symmetry. by eapply points_to_length.
  - destruct Hs as [Hc Hnh]. exists o, [].
    split_and!; [done|by rewrite app_nil_r|done|].
    rewrite Hc. by intros [? ?].
Qed.

Lemma X10_witness :
  ∃ o new,
    build_if_possible (fresh_world example_tiles) [0; 1; 2] = Some o ∧
    node_store (out_world o)
    = node_store (fresh_world example_tiles) ++ new ∧
    (out_chain o = None → new = []) ∧
    (is_Some (out_chain o) → length new = length [0; 1; 2]).
Proof.
  apply (X10_solver_node_store_frame (fresh_world example_tiles) [0; 1; 2]
           example_tiles).
  repeat constructor.
Defined.

Lemma oriented_sym a b : oriented a b → oriented b a.
Proof.
  intros [->| ->]; [by left|]. right. by rewrite flipped_involutive.
Qed.

Lemma oriented_trans a b c : oriented a b → oriented b c → oriented a c.
Proof.
  intros [->| ->] [->| ->]; [by left|by right|by right|].
  left. by rewrite flipped_involutive.
Qed.

Lemma Forall2_oriented_sym l k : Forall2 oriented l k → Forall2 oriented k l.
Proof. induction 1; constructor; auto using oriented_sym. Qed.

Lemma Forall2_oriented_trans l k m :
  Forall2 oriented l k → Forall2 oriented k m → Forall2 oriented l m.
Proof.
  intros H. revert m. induction H; intros m Hm; inversion Hm; subst;
    constructor; eauto using oriented_trans.
Qed.

Lemma rearranged_sym vs vs' : rearranged vs vs' → rearranged vs' vs.
Proof.
  intros (p & Hp & Hpv).
  destruct (Permutation_Forall2 Hp Hpv) as (q & Hq & Hvq).
  exists q. split; [done|]. by apply Forall2_oriented_sym.
Qed.

Lemma chainable_rearranged vs vs' :
  rearranged vs vs' → chainable vs → chainable vs'.
Proof.
  intros (q & Hq & Hqv) (p & f & Hp & Hpf & Hadj).
  assert (Hqp : q ≡ₚ p) by by rewrite Hq, Hp.
  destruct (Permutation_Forall2 Hqp Hqv) as (p' & Hp' & Hpp').
  exists p', f. split_and!; [done| |done].
  eapply Forall2_oriented_trans; [|exact Hpf].
  by apply Forall2_oriented_sym.
Qed.

(** X11: whether the solver finds a chain does not depend on the order in
    which the tiles are listed nor on which way round each tile is given. *)
Theorem X11_success_ignores_order_and_orientation w tiles vs w' tiles' vs' :
  points_to (tile_store w) tiles vs →
  points_to (tile_store w') tiles' vs' →
  rearranged vs vs' →
  ∃ o o',
    build_if_possible w tiles = Some o ∧
    build_if_possible w' tiles' = Some o' ∧
    (is_Some (out_chain o) ↔ is_Some (out_chain o')).
Proof.
  intros Hpt Hpt' Hre.
  destruct (build_if_possible_spec _ _ _ Hpt) as (o & Ho & Hs).
  destruct (build_if_possible_spec _ _ _ Hpt') as (o' & Ho' & Hs').
  exists o, o'. split_and!; [done..|].
  rewrite (proj1 (solved_decides _ _ _ _ Hs)).
  rewrite (proj1 (solved_decides _ _ _ _ Hs')).
  split; apply chainable_rearranged; [done|by apply rearranged_sym].
Qed.

Lemma X11_witness :
  ∃ o o',
    build_if_possible (fresh_world example_tiles) [0; 1; 2] = Some o ∧
    build_if_possible (fresh_world [tile 2 4; tile 2 0; tile 0 4]) [0; 1; 2]
    = Some o' ∧
    (is_Some (out_chain o) ↔ is_Some (out_chain o')).
Proof.
  apply (X11_success_ignores_order_and_orientation
           (fresh_world example_tiles) [0; 1; 2] example_tiles
           (fresh_world [tile 2 4; tile 2 0; tile 0 4]) [0; 1; 2]
           [tile 2 4; tile 2 0; tile 0 4]).
  - repeat constructor.
  - repeat constructor.
  - exists [tile 4 2; tile 0 2; tile 0 4]. split.
    + apply (Permutation_cons_append [tile 0 2; tile 0 4] (tile 4 2)).
    + repeat constructor; by right.
Defined.

(** ** The session *)

Lemma well_formed_dec part : well_formed part ∨ ¬ well_formed part.
Proof.
  destruct (token_cases part)
    as [Hx|[[Hbad _]|Hbad%unreadable_not_well_formed]]; auto.
Qed.

Lemma parts_cases parts :
  (∃ vs, Forall2 token_tile parts vs) ∨
  (∃ pre bad rest, parts = pre ++ bad :: rest ∧
                   Forall well_formed pre ∧ ¬ well_formed bad).
Proof.
  induction parts as [|part parts IH]; [left; by exists []|].
  destruct (well_formed_dec part) as [[x Hx]|Hbad].
  - destruct IH as [(vs & Hvs)|(pre & bad & rest & -> & Hpre & Hbad)].
    + left. exists (x :: vs). by constructor.
    + right. exists (part :: pre), bad, rest. split_and!; [done| |done].
      constructor; [by exists x|done].
  - right. by exists [], part, parts.
Qed.

(** One entry either leaves history and solver calls alone, and then is
    asked for again or ends the session with the exception of [int], or is
    recorded and solved once. *)
Lemma add_attempt_effect st line :
  entry_effect st (add_attempt st line) (strip line).
Proof.
  unfold add_attempt. set (input_str := strip line).
  destruct (String.eqb input_str EmptyString) eqn:Heq.
  { apply entry_refused; simpl; [done| |done].
    rewrite solver_calls_app. simpl. by rewrite app_nil_r. }
  fold (tokens input_str).
  destruct (parts_cases (tokens input_str))
    as [(vs & Hvs)|(pre & bad & rest & Htok & Hpre & Hbad)].
  - rewrite (parse_parts_good _ _ _ _ Hvs). simpl app.
    set (h := tile_store (objects st)).
    pose proof (points_to_seq h vs) as Hpt.
    assert (Hcalled : mapM (λ r, (h ++ vs) !! r) (seq (length h) (length vs))
                      = Some vs) by by apply mapM_Some.
    rewrite Hcalled. simpl default.
    destruct (build_if_possible_spec
                (World (h ++ vs) (node_store (objects st))) _ _ Hpt)
      as (o & -> & Hs).
    apply solved_chain in Hs.
    destruct (first_valid vs) as [v|].
    + destruct Hs as (chain & rs & -> & _ & _ & _ & ->).
      apply (entry_taken _ _ _ vs); simpl; [done..| |done].
      rewrite solver_calls_app. done.
    + rewrite Hs.
      apply (entry_taken _ _ _ vs); simpl; [done..| |done].
      rewrite solver_calls_app. done.
  - destruct (token_cases bad) as [Hgood|[[_ Hread]|Hraise]]; [done| |].
    + rewrite Htok.
      destruct (parse_parts_bad pre (tile_store (objects st)) [] bad rest
                  Hpre Hbad Hread) as (message & -> & _).
      apply entry_refused; simpl; [done| |done].
      rewrite solver_calls_app. simpl. by rewrite app_nil_r.
    + rewrite Htok.
      rewrite (parse_parts_raise pre (tile_store (objects st)) [] bad rest
                 Hpre Hraise).
      apply (entry_raised _ _ _ bad); simpl; [|done|done| |done].
      * rewrite Htok. apply elem_of_app. right. by left.
      * by rewrite app_nil_r.
Qed.

Lemma solver_calls_prints (g : nat → string → string) entries :
  solver_calls (imap (λ i entry, Print (g i entry)) entries) = [].
Proof.
  revert g. induction entries as [|e entries IH]; intros g; [done|].
  simpl. apply (IH (λ i, g (S i))).
Qed.

Lemma solver_calls_history entries :
  solver_calls (history_events entries) = [].
Proof. apply solver_calls_prints. Qed.

(** A menu command records nothing, calls nothing and never raises. *)
Lemma emit_prints_effect st es m :
  solver_calls es = [] →
  all_inputs (emit es m st) = all_inputs st ∧
  solver_calls (events (emit es m st)) = solver_calls (events st) ∧
  at_mode (emit es m st) = m.
Proof.
  intros Hes. simpl. by rewrite solver_calls_app, Hes, app_nil_r.
Qed.

Lemma menu_command_effect st line :
  all_inputs (menu_command st line) = all_inputs st ∧
  solver_calls (events (menu_command st line)) = solver_calls (events st) ∧
  at_mode (menu_command st line) ≠ Crashed.
Proof.
  assert (Hgen : ∀ es m, solver_calls es = [] → m ≠ Crashed →
    all_inputs (emit es m st) = all_inputs st ∧
    solver_calls (events (emit es m st)) = solver_calls (events st) ∧
    at_mode (emit es m st) ≠ Crashed).
  { intros es m Hes Hm.
    by destruct (emit_prints_effect st es m Hes) as (-> & -> & ->). }
  unfold menu_command.
  destruct (String.eqb (strip line) "1"); [by apply Hgen|].
  destruct (String.eqb (strip line) "2").
  - destruct (all_inputs st) as [|e entries] eqn:Hin.
    + by apply Hgen.
    + apply Hgen; [|done].
      change (solver_calls (history_events (e :: entries) ++ menu_events)
              = []).
      by rewrite solver_calls_app, solver_calls_history.
  - destruct (String.eqb (strip line) "3"); by apply Hgen.
Qed.

(** ** Lines of ASCII characters *)

Lemma ascii_line_cons c s :
  ascii_line (String c s) ↔ nat_of_ascii c < 128 ∧ ascii_line s.
Proof.
  unfold ascii_line. simpl. split.
  - intros H. by inversion H.
  - intros [Hc Hs]. by constructor.
Qed.

Lemma ascii_line_app s1 s2 :
  ascii_line s1 → ascii_line s2 → ascii_line (s1 ++ s2).
Proof.
  intros H1 H2. induction s1 as [|c s1 IH]; [done|]. simpl.
  apply ascii_line_cons in H1 as [Hc H1]. apply ascii_line_cons. auto.
Qed.

Lemma ascii_starts s : ascii_line s → starts_continued s = false.
Proof.
  destruct s as [|c s]; [done|]. intros [Hc _]%ascii_line_cons. simpl.
  unfold is_continuation. apply andb_false_iff. left. apply Nat.leb_gt. lia.
Qed.

Lemma characters_ascii s :
  ascii_line s →
  characters s = (λ c, String c EmptyString) <$> list_ascii_of_string s.
Proof.
  induction s as [|c s IH]; [done|]. intros [Hc Hs]%ascii_line_cons.
  rewrite characters_cons by by apply ascii_starts. simpl.
  by rewrite IH.
Qed.

Lemma ascii_characters s : ascii_line s → Forall ascii_line (characters s).
Proof.
  intros Hs. rewrite (characters_ascii _ Hs). apply Forall_fmap.
  eapply Forall_impl; [exact Hs|]. intros c Hc. simpl.
  apply ascii_line_cons. split; [done|constructor].
Qed.

Lemma Forall_lstrip (P : string → Prop) chs :
  Forall P chs → Forall P (lstrip chs).
Proof.
  induction 1 as [|ch chs Hch Hchs IH]; [done|]. simpl.
  destruct (is_space ch); [done|by constructor].
Qed.

Lemma Forall_rstrip (P : string → Prop) chs :
  Forall P chs → Forall P (rstrip chs).
Proof.
  induction 1 as [|ch chs Hch Hchs IH]; [done|]. simpl.
  destruct (rstrip chs); [|by constructor].
  destruct (is_space ch); by repeat constructor.
Qed.

Lemma ascii_concat chs :
  Forall ascii_line chs → ascii_line (String.concat EmptyString chs).
Proof.
  induction 1 as [|ch chs Hch Hchs IH]; [constructor|].
  rewrite concat_cons. by apply ascii_line_app.
Qed.

Lemma ascii_strip s : ascii_line s → ascii_line (strip s).
Proof.
  intros Hs. apply ascii_concat, Forall_rstrip, Forall_lstrip.
  by apply ascii_characters.
Qed.

Lemma ascii_split s : ascii_line s → Forall ascii_line (split_comma s).
Proof.
  induction s as [|c s IH]; [by repeat constructor|].
  intros [Hc Hs]%ascii_line_cons. specialize (IH Hs). simpl.
  destruct (Ascii.eqb c ","); [constructor; [constructor|done]|].
  destruct (split_comma s) as [|piece rest].
  - constructor; [|constructor]. apply ascii_line_cons.
    split; [done|constructor].
  - inversion IH as [|? ? Hpiece Hrest]; subst.
    constructor; [|done]. by apply ascii_line_cons.
Qed.

Lemma ascii_tokens s : ascii_line s → Forall ascii_line (tokens s).
Proof.
  intros Hs. unfold tokens. apply Forall_fmap.
  eapply Forall_impl; [by apply ascii_split|]. intros part. apply ascii_strip.
Qed.

(** On ASCII text every digit is a decimal digit: [int] reads whatever
    [str.isdigit] lets through. *)
Lemma ascii_readable part : ascii_line part → ¬ unreadable part.
Proof.
  intros Hp (ch0 & ch1 & Hch & H0 & H1 & Hnone).
  rewrite (characters_ascii _ Hp) in Hch.
  destruct (list_ascii_of_string part) as [|c0 [|c1 [|c2 l]]];
    simplify_eq/=.
  destruct Hnone as [H|H]; [by apply (byte_digit_decimal c0)|
                            by apply (byte_digit_decimal c1)].
Qed.

Lemma add_attempt_ascii st line :
  ascii_line line → at_mode (add_attempt st line) ≠ Crashed.
Proof.
  intros Hline.
  destruct (add_attempt_effect st line)
    as [_ _ ->|bad Hbad Hraise _ _ _|vs _ _ _ ->]; [done| |done].
  destruct (ascii_readable bad); [|done].
  pose proof (ascii_tokens _ (ascii_strip _ Hline)) as Htok.
  rewrite Forall_forall in Htok. by apply Htok.
Qed.

Lemma step_history_ok st line :
  history_matches_calls st → history_matches_calls (step st line).
Proof.
  intros Hhist. unfold step. destruct (at_mode st); [| |done..].
  - destruct (menu_command_effect st line) as (Hin & Hcalls & _).
    unfold history_matches_calls. by rewrite Hin, Hcalls.
  - unfold history_matches_calls.
    destruct (add_attempt_effect st line)
      as [Hin Hcalls _|bad _ _ Hin Hcalls _|vs Hvs Hin Hcalls _];
      rewrite Hin, Hcalls; [done|done|].
    apply Forall2_app; [done|]. by constructor.
Qed.

Lemma step_ok st line :
  ascii_line line → session_ok st → session_ok (step st line).
Proof.
  intros Hline [Hmode Hhist]. split; [|by apply step_history_ok].
  unfold step. destruct (at_mode st) eqn:Hm; [| |by rewrite Hm..].
  - apply menu_command_effect.
  - by apply add_attempt_ascii.
Qed.

Lemma steps_ok lines : ∀ st,
  Forall ascii_line lines → session_ok st →
  session_ok (fold_left step lines st).
Proof.
  induction lines as [|line lines IH]; intros st Hlines Hst; [done|].
  inversion Hlines; subst. simpl. by apply IH, step_ok.
Qed.

Lemma main_ok lines :
  Forall ascii_line lines →
  at_mode (main lines) = Finished ∧ history_matches_calls (main lines).
Proof.
  intros Hlines. unfold main.
  match goal with
  | |- context [fold_left step lines ?st0] =>
      assert (H0 : session_ok st0) by (split; [done|constructor]);
      destruct (steps_ok lines st0 Hlines H0) as [Hmode Hhist];
      set (st := fold_left step lines st0) in *
  end.
  unfold end_of_input.
  destruct (at_mode st) eqn:Hm; try done.
  - split; [done|]. unfold history_matches_calls, emit. simpl.
    rewrite solver_calls_app. simpl. by rewrite app_nil_r.
  - split; [done|]. unfold history_matches_calls, emit. simpl.
    rewrite solver_calls_app. simpl. by rewrite app_nil_r.
Qed.

Lemma ascii_line_check s :
  forallb (λ c, nat_of_ascii c <? 128) (list_ascii_of_string s) = true →
  ascii_line s.
Proof.
  intros H. apply Forall_forall. intros c Hc%list_elem_of_In.
  rewrite forallb_forall in H. by apply Nat.ltb_lt, H.
Qed.

Lemma exit_is_last_step st line :
  (at_mode st = Finished →
   last (events st) = Some (Print "Программа завершена.")) →
  at_mode (step st line) = Finished →
  last (events (step st line)) = Some (Print "Программа завершена.").
Proof.
  intros Hst. unfold step.
  destruct (at_mode st) eqn:Hm; [| |by auto|by rewrite Hm].
  - unfold menu_command.
    destruct (String.eqb (strip line) "1"); [done|].
    destruct (String.eqb (strip line) "2");
      [by destruct (all_inputs st)|].
    destruct (String.eqb (strip line) "3"); [|done].
    intros _. simpl. by rewrite last_snoc.
  - intros Hfin.
    destruct (add_attempt_effect st line)
      as [_ _ Hmode|bad _ _ _ _ Hmode|vs _ _ _ Hmode]; congruence.
Qed.

Lemma exit_is_last lines : ∀ st,
  (at_mode st = Finished →
   last (events st) = Some (Print "Программа завершена.")) →
  at_mode (fold_left step lines st) = Finished →
  last (events (fold_left step lines st))
  = Some (Print "Программа завершена.").
Proof.
  induction lines as [|line lines IH]; intros st Hst; [done|].
  simpl. apply IH. by apply exit_is_last_step.
Qed.

(** X12: on ASCII input lines [main] never raises, whatever is typed: it
    always ends, and the last thing it prints is the exit message of
    command 3 or, when the input ends first, the stop message. *)
Theorem X12_main_always_ends_cleanly lines :
  Forall ascii_line lines →
  at_mode (main lines) = Finished ∧
  (last (events (main lines)) = Some (Print "Программа завершена.") ∨
   last (events (main lines)) = Some stop_event).
Proof.
  intros Hlines. split; [by apply main_ok|].
  unfold main.
  match goal with
  | |- context [fold_left step lines ?st0] =>
      pose proof (exit_is_last lines st0) as Hlast;
      assert (H0 : session_ok st0) by (split; [done|constructor]);
      destruct (steps_ok lines st0 Hlines H0) as [Hmode _];
      set (st := fold_left step lines st0) in *
  end.
  unfold end_of_input. destruct (at_mode st) eqn:Hm.
  - right. simpl. by rewrite last_snoc.
  - right. simpl. by rewrite last_snoc.
  - left. by apply Hlast.
  - done.
Qed.

Lemma X12_witness :
  at_mode (main ["1"; "02, 04, 42"; "3"]%string) = Finished ∧
  (last (events (main ["1"; "02, 04, 42"; "3"]%string))
   = Some (Print "Программа завершена.") ∨
   last (events (main ["1"; "02, 04, 42"; "3"]%string)) = Some stop_event).
Proof.
  apply (X12_main_always_ends_cleanly ["1"; "02, 04, 42"; "3"]%string).
  repeat (constructor; [by apply ascii_line_check|]). constructor.
Defined.

(** X13: in every session on ASCII input lines, the history and the solver
    calls agree: the solver has been called exactly once per recorded entry,
    in order, on the tiles that the tokens of the entry denote, so every
    recorded entry consists of well-formed tokens only. *)
Theorem X13_history_matches_solver_calls lines :
  Forall ascii_line lines →
  Forall2 (λ entry vs, Forall2 token_tile (tokens entry) vs)
    (all_inputs (main lines)) (solver_calls (events (main lines))).
Proof. intros Hlines. by apply main_ok. Qed.

Lemma X13_witness :
  Forall2 (λ entry vs, Forall2 token_tile (tokens entry) vs)
    (all_inputs (main ["1"; "72"; "02, 04, 42"; "3"]%string))
    (solver_calls (events (main ["1"; "72"; "02, 04, 42"; "3"]%string))).
Proof.
  apply (X13_history_matches_solver_calls
           ["1"; "72"; "02, 04, 42"; "3"]%string).
  repeat (constructor; [by apply ascii_line_check|]). constructor.
Defined.

(** ** The two entry loops of scratch_12.py *)

(** X14: the tile entry loop of the first [main] of scratch_12.py, whose
    range test reads [not (0 <= a <= 6 and 0 <= b <= 6)], treats every list
    of tokens as the loop of the main program does, whose test reads
    [a > 6 or b > 6]: the same entries are accepted, with the same tile
    objects, and an entry is refused at the same token for the same kind of
    violation; only the texts of the two messages differ. *)
Theorem X14_entry_loops_agree parts : ∀ h tiles,
  parse_parts_first h tiles parts
  = match parse_parts h tiles parts with
    | Some (Rejected message) => Some (Rejected (first_message message))
    | other => other
    end.
Proof.
  induction parts as [|part parts IH]; intros h tiles; [done|].
  cbn [parse_parts parse_parts_first].
  destruct (negb (length (characters part) =? 2)%nat
            || negb (str_isdigit part)); [done|].
  destruct (characters part !! 0) as [ch0|]; [|done].
  cbn [mbind option_bind].
  destruct (int_of_char ch0) as [a|] eqn:Ha; [|done]. cbn [mbind option_bind].
  destruct (characters part !! 1) as [ch1|]; [|done].
  cbn [mbind option_bind].
  destruct (int_of_char ch1) as [b|] eqn:Hb; [|done]. cbn [mbind option_bind].
  apply int_of_char_nonneg in Ha, Hb.
  rewrite (proj2 (Z.leb_le 0 a) Ha), (proj2 (Z.leb_le 0 b) Hb). simpl.
  destruct (Z.ltb_spec 6 a), (Z.ltb_spec 6 b), (Z.leb_spec a 6),
    (Z.leb_spec b 6); simpl; try lia; try done; apply IH.
Qed.

(** ** An answer typed back in *)

Lemma rendered_plain x : in_range x → plain_token (DominoTile_str x).
Proof.
  destruct x as [l r]. intros [Hl Hr]. simpl in Hl, Hr.
  destruct (digit_char_facts l Hl) as (Hsl & Hcl & Hel & Hspl & _).
  destruct (digit_char_facts r Hr) as (Hsr & Hcr & Her & Hspr & _).
  exists (digit_char l), (digit_char r).
  unfold DominoTile_str. simpl. by rewrite Hsl, Hsr.
Qed.

Lemma split_comma_plain c s :
  Ascii.eqb c "," = false →
  split_comma (String c s)
  = match split_comma s with
    | piece :: rest => String c piece :: rest
    | [] => [String c EmptyString]
    end.
Proof. intros Hc. cbn [split_comma]. by rewrite Hc. Qed.

Section Joined.
Implicit Types (t : string) (toks : list string).

Lemma plain_strip t : plain_token t → strip t = t.
Proof.
  intros (c0 & c1 & -> & (_ & H0 & _) & (Hc & H1 & _)). by apply strip_two.
Qed.

Lemma plain_strip_padded t : plain_token t → strip (String " " t) = t.
Proof.
  intros Ht. rewrite strip_padded; [by apply plain_strip|].
  by destruct Ht as (c0 & c1 & -> & (Hc & _) & _).
Qed.

Lemma plain_split t s :
  plain_token t →
  split_comma (t ++ s)%string
  = match split_comma s with
    | piece :: rest => (t ++ piece)%string :: rest
    | [] => [t]
    end.
Proof.
  intros (c0 & c1 & -> & (_ & _ & H0) & (_ & _ & H1)).
  cbn [String.append]. rewrite (split_comma_plain c0) by done.
  rewrite (split_comma_plain c1) by done.
  by destruct (split_comma s).
Qed.

Lemma joined_split t toks :
  Forall plain_token (t :: toks) →
  split_comma (String.concat ", " (t :: toks)) = t :: (String " " <$> toks).
Proof.
  revert t. induction toks as [|t' toks IH]; intros t Htoks;
    inversion Htoks as [|? ? Ht Hrest]; subst.
  - destruct Ht as (c0 & c1 & -> & (_ & _ & H0) & (_ & _ & H1)).
    cbn [String.concat]. by rewrite !split_comma_plain by done.
  - change (String.concat ", " (t :: t' :: toks))
      with (t ++ ", " ++ String.concat ", " (t' :: toks))%string.
    rewrite (plain_split _ _ Ht).
    set (X := String.concat ", " (t' :: toks)) in *.
    change (split_comma (", " ++ X))
      with (EmptyString :: match split_comma X with
                          | piece :: rest => String " " piece :: rest
                          | [] => [String " " EmptyString]
                          end).
    subst X. rewrite (IH t' Hrest), fmap_cons.
    by destruct Ht as (c0 & c1 & -> & _).
Qed.

Lemma joined_starts t toks :
  plain_token t → starts_continued (String.concat ", " (t :: toks)) = false.
Proof.
  intros (c0 & c1 & -> & (Hc & _) & _). by destruct toks.
Qed.

(** The joined line begins and ends with a character that is no white
    space. *)
Lemma joined_characters t toks :
  Forall plain_token (t :: toks) →
  ∃ ch0 chs chN,
    characters (String.concat ", " (t :: toks)) = ch0 :: chs ∧
    is_space ch0 = false ∧
    last (ch0 :: chs) = Some chN ∧ is_space chN = false.
Proof.
  revert t. induction toks as [|t' toks IH]; intros t Htoks;
    inversion Htoks as [|? ? Ht Hrest]; subst.
  - destruct Ht as (c0 & c1 & -> & (_ & H0 & _) & (Hc & H1 & _)).
    exists (String c0 EmptyString), [String c1 EmptyString],
      (String c1 EmptyString).
    cbn [String.concat]. by rewrite characters_two.
  - destruct (IH t' Hrest) as (ch0' & chs' & chN & Hch & _ & Hlast & HN).
    inversion Hrest as [|? ? Ht' _]; subst.
    pose proof (joined_starts t' toks Ht') as Hstart.
    change (String.concat ", " (t :: t' :: toks))
      with (t ++ ", " ++ String.concat ", " (t' :: toks))%string.
    set (X := String.concat ", " (t' :: toks)) in *.
    destruct Ht as (c0 & c1 & -> & (_ & H0 & _) & (Hc & _)).
    cbn [String.append].
    rewrite (characters_cons c0) by done.
    rewrite (characters_cons c1) by done.
    rewrite (characters_cons ",") by done.
    rewrite (characters_cons " ") by done.
    rewrite Hch. eexists _, _, chN. split_and!; [done|done| |done].
    exact Hlast.
Qed.

Lemma joined_strip t toks :
  Forall plain_token (t :: toks) →
  strip (String.concat ", " (t :: toks)) = String.concat ", " (t :: toks).
Proof.
  intros (ch0 & chs & chN & Hch & H0 & Hlast & HN)%joined_characters.
  by apply (strip_keep _ ch0 chs chN).
Qed.

Lemma joined_tokens t toks :
  Forall plain_token (t :: toks) →
  tokens (strip (String.concat ", " (t :: toks))) = t :: toks.
Proof.
  intros Htoks. rewrite (joined_strip _ _ Htoks).
  unfold tokens. rewrite (joined_split _ _ Htoks).
  inversion Htoks as [|? ? Ht Hrest]; subst.
  rewrite fmap_cons, (plain_strip _ Ht). f_equal.
  clear -Hrest. induction Hrest as [|t' toks Ht' _ IH]; [done|].
  by rewrite !fmap_cons, (plain_strip_padded _ Ht'), IH.
Qed.

End Joined.

(** An entry of well-formed tokens: what is recorded, called and printed. *)
Lemma add_attempt_taken st line vs :
  Forall2 token_tile (tokens (strip line)) vs →
  all_inputs (add_attempt st line) = all_inputs st ++ [strip line] ∧
  events (add_attempt st line)
  = events st ++ Solve vs :: Print (answer_text vs) :: menu_events ∧
  at_mode (add_attempt st line) = AtMenu.
Proof.
  intros Hvs. unfold add_attempt. set (input_str := strip line) in *.
  assert (Hne : String.eqb input_str EmptyString = false).
  { apply String.eqb_neq. intros Heq. rewrite Heq, tokens_empty in Hvs.
    inversion Hvs as [|? x ? ? Hx _]; subst.
    apply not_well_formed_empty. by exists x. }
  rewrite Hne. fold (tokens input_str).
  rewrite (parse_parts_good _ _ _ _ Hvs). simpl app.
  set (h := tile_store (objects st)).
  pose proof (points_to_seq h vs) as Hpt.
  assert (Hcalled : mapM (λ r, (h ++ vs) !! r) (seq (length h) (length vs))
                    = Some vs) by by apply mapM_Some.
  rewrite Hcalled. simpl default.
  destruct (build_if_possible_spec
              (World (h ++ vs) (node_store (objects st))) _ _ Hpt)
    as (o & -> & Hs).
  apply solved_chain in Hs. unfold answer_text.
  destruct (first_valid vs) as [v|].
  - by destruct Hs as (chain & rs & -> & _ & _ & _ & ->).
  - by rewrite Hs.
Qed.

(** X15: an entry that lists a chain of tiles with values in 0..6, written
    as the program prints its answers (two digits per tile, joined by a
    comma and a space), is accepted, recorded as typed, and answered with
    that same line: an answer typed back in comes back unchanged. *)
Theorem X15_answer_typed_back_comes_back st v :
  v ≠ [] → Forall in_range v → adjacent v →
  let line := String.concat ", " (DominoTile_str <$> v) in
  all_inputs (add_attempt st line) = all_inputs st ++ [line] ∧
  events (add_attempt st line)
  = events st
    ++ Solve v :: Print ("Можно:" ++ " " ++ line)%string :: menu_events ∧
  at_mode (add_attempt st line) = AtMenu.
Proof.
  intros Hne Hrange Hadj line.
  assert (Htok : Forall2 token_tile (DominoTile_str <$> v) v).
  { clear -Hrange. induction Hrange as [|x v Hx _ IH]; [constructor|].
    rewrite fmap_cons. constructor; [by apply render_token|done]. }
  assert (Htwo : Forall plain_token (DominoTile_str <$> v)).
  { clear -Hrange. induction Hrange as [|x v Hx _ IH]; [constructor|].
    rewrite fmap_cons. constructor; [by apply rendered_plain|done]. }
  destruct v as [|x v]; [done|]. rewrite fmap_cons in Htok, Htwo.
  pose proof (joined_strip _ _ Htwo) as Hstrip.
  pose proof (joined_tokens _ _ Htwo) as Htokens.
  change (DominoTile_str x :: (DominoTile_str <$> v))
    with (DominoTile_str <$> x :: v) in Hstrip, Htokens, Htok.
  fold line in Hstrip, Htokens.
  rewrite <- Htokens in Htok.
  destruct (add_attempt_taken st line (x :: v) Htok) as (Hin & Hev & Hm).
  rewrite Hin, Hev, Hstrip. unfold answer_text.
  by rewrite (first_valid_of_chain _ Hadj).
Qed.

Lemma X15_witness :
  all_inputs
    (add_attempt (Session [] [] (World [] []) AtAdd)
       (String.concat ", "
          (DominoTile_str <$> [tile 2 0; tile 0 4; tile 4 2])))
  = all_inputs (Session [] [] (World [] []) AtAdd)
    ++ [String.concat ", "
          (DominoTile_str <$> [tile 2 0; tile 0 4; tile 4 2])] ∧
  events
    (add_attempt (Session [] [] (World [] []) AtAdd)
       (String.concat ", "
          (DominoTile_str <$> [tile 2 0; tile 0 4; tile 4 2])))
  = events (Session [] [] (World [] []) AtAdd)
    ++ Solve [tile 2 0; tile 0 4; tile 4 2]
       :: Print ("Можно:" ++ " "
                 ++ String.concat ", "
                      (DominoTile_str <$> [tile 2 0; tile 0 4; tile 4 2]))%string
       :: menu_events ∧
  at_mode
    (add_attempt (Session [] [] (World [] []) AtAdd)
       (String.concat ", "
          (DominoTile_str <$> [tile 2 0; tile 0 4; tile 4 2])))
  = AtMenu.
Proof.
  apply (X15_answer_typed_back_comes_back (Session [] [] (World [] []) AtAdd)
           [tile 2 0; tile 0 4; tile 4 2]).
  - done.
  - repeat constructor; simpl; lia.
  - apply validb_adjacent. reflexivity.
Defined.

(** ** The chain and the history *)

(** X16: appending one more tile to a chain built by [append_tile] calls
    adds the rendering of that tile at the end of [to_list] and keeps what
    was listed before; the nodes that were in the store before the chain was
    started are not touched. *)
Theorem X16_append_tile_extends_to_list th nh0 ts vs t x :
  points_to th ts vs → th !! t = Some x →
  ∃ nh chain nh' chain',
    make_chain nh0 ts = Some (nh, chain) ∧
    append_tile nh chain t = Some (nh', chain') ∧
    to_list th nh chain = Some (DominoTile_str <$> vs) ∧
    to_list th nh' chain'
    = Some ((DominoTile_str <$> vs) ++ [DominoTile_str x]) ∧
    take (length nh0) nh' = nh0.
Proof.
  intros Hpt Ht. rewrite make_chain_spec.
  eexists _, _, _, _. split_and!; [done|apply append_tile_spec| | |].
  - by apply to_list_linked.
  - assert (Hpt' : points_to th (ts ++ [t]) (vs ++ [x])).
    { apply Forall2_app; [done|]. by repeat constructor. }
    rewrite (to_list_linked nh0 (ts ++ [t]) th (vs ++ [x]) Hpt').
    by rewrite fmap_app.
  - by rewrite take_app_length.
Qed.

Lemma X16_witness :
  ∃ nh chain nh' chain',
    make_chain [] [0; 1] = Some (nh, chain) ∧
    append_tile nh chain 2 = Some (nh', chain') ∧
    to_list example_tiles nh chain
    = Some (DominoTile_str <$> [tile 0 2; tile 0 4]) ∧
    to_list example_tiles nh' chain'
    = Some ((DominoTile_str <$> [tile 0 2; tile 0 4])
            ++ [DominoTile_str (tile 4 2)]) ∧
    take (length ([] : node_heap)) nh' = [].
Proof.
  apply (X16_append_tile_extends_to_list example_tiles [] [0; 1]
           [tile 0 2; tile 0 4] 2 (tile 4 2)).
  - repeat constructor.
  - reflexivity.
Defined.

Lemma step_history_grows st line :
  all_inputs st `prefix_of` all_inputs (step st line).
Proof.
  unfold step. destruct (at_mode st); [| |done..].
  - by destruct (menu_command_effect st line) as (-> & _).
  - destruct (add_attempt_effect st line)
      as [-> _ _|bad _ _ -> _ _|vs _ -> _ _]; [done|done|].
    by apply prefix_app_r.
Qed.

Lemma steps_history_grow lines : ∀ st,
  all_inputs st `prefix_of` all_inputs (fold_left step lines st).
Proof.
  induction lines as [|line lines IH]; intros st; [done|].
  simpl. etrans; [apply step_history_grows|apply IH].
Qed.

Lemma end_of_input_history st : all_inputs (end_of_input st) = all_inputs st.
Proof. unfold end_of_input. by destruct (at_mode st). Qed.

(** X17: a recorded entry is never altered or dropped: the history of a
    session on ASCII input lines is a prefix of the history of every session
    that starts with the same lines. *)
Theorem X17_history_only_grows lines more :
  Forall ascii_line (lines ++ more) →
  all_inputs (main lines) `prefix_of` all_inputs (main (lines ++ more)).
Proof.
  intros _. unfold main.
  rewrite !end_of_input_history, fold_left_app.
  apply steps_history_grow.
Qed.

Lemma X17_witness :
  all_inputs (main ["1"; "02, 04, 42"]%string)
  `prefix_of`
  all_inputs (main (["1"; "02, 04, 42"]%string ++ ["1"; "55"; "3"]%string)).
Proof.
  apply (X17_history_only_grows ["1"; "02, 04, 42"]%string
           ["1"; "55"; "3"]%string).
  repeat (constructor; [by apply ascii_line_check|]). constructor.
Defined.

(** ** A digit that int cannot read *)

Lemma steps_crashed lines : ∀ st,
  at_mode st = Crashed → fold_left step lines st = st.
Proof.
  induction lines as [|line lines IH]; intros st Hst; [done|].
  simpl. unfold step at 2. rewrite Hst. by apply IH.
Qed.

(** X18: an entry at the add option in which the first token that is not
    well formed is two digit characters that are not both decimal digits (a
    superscript two followed by a two, say) passes the check of
    [str.isdigit] and makes [int] raise: [main] ends in that exception with
    no message printed, nothing recorded and the solver not called, and no
    line typed afterwards is read. *)
Theorem X18_digit_that_int_cannot_read_raises st line pre bad rest more :
  at_mode st = AtAdd →
  tokens (strip line) = pre ++ bad :: rest →
  Forall well_formed pre → unreadable bad →
  let st' := fold_left step (line :: more) st in
  at_mode st' = Crashed ∧
  events st' = events st ∧
  all_inputs st' = all_inputs st ∧
  end_of_input st' = st'.
Proof.
  intros Hmode Htok Hpre Hbad st'.
  assert (Hstep : step st line = emit [] Crashed st).
  { unfold step. rewrite Hmode. unfold add_attempt.
    destruct (String.eqb (strip line) EmptyString) eqn:Heq.
    - apply String.eqb_eq in Heq. rewrite Heq, tokens_empty in Htok.
      destruct pre as [|part [|part' pre]]; simplify_eq/=.
      by destruct Hbad as (ch0 & ch1 & ? & _).
    - fold (tokens (strip line)). rewrite Htok.
      by rewrite (parse_parts_raise pre _ _ bad rest Hpre Hbad). }
  assert (Hst' : st' = emit [] Crashed st).
  { subst st'. simpl. rewrite Hstep. by apply steps_crashed. }
  rewrite Hst'. simpl. by rewrite app_nil_r.
Qed.

Lemma X18_witness :
  let st' :=
    fold_left step ("²2" :: ["3"])%string (Session [] [] (World [] []) AtAdd) in
  at_mode st' = Crashed ∧
  events st' = events (Session [] [] (World [] []) AtAdd) ∧
  all_inputs st' = all_inputs (Session [] [] (World [] []) AtAdd) ∧
  end_of_input st' = st'.
Proof.
  apply (X18_digit_that_int_cannot_read_raises
           (Session [] [] (World [] []) AtAdd) "²2" [] "²2" [] ["3"%string]).
  - reflexivity.
  - reflexivity.
  - constructor.
  - exists "²"%string, "2"%string. split_and!; [reflexivity..|].
    left. reflexivity.
Defined.
